(** * go-tdlib client: dispatch loop, request correlation and authorization

    A shallow embedding of [client/client.go] and of the two revisions of
    [client/authorization.go] carried by the repository, followed by the
    properties of the specification that concern them.

    Goroutines are sequentialised: every function of the source becomes
    a function over an explicit state, and whatever the other goroutines
    and the remote engine contribute (inbound messages, the outcome of a
    [select], replies to requests) is an explicit input. *)

From stdpp Require Import gmap strings list fin_maps.
From Stdlib Require Import ZArith.

Open Scope Z_scope.

(** ** Buffered Go channels *)

Module Chan.

Record t (A : Type) := Mk { buf : list A; cap : nat; closed : bool }.
Arguments Mk {A} _ _ _.
Arguments buf {A} _.
Arguments cap {A} _.
Arguments closed {A} _.

(** [make(chan A, n)] *)
Definition make {A} (n : nat) : t A := Mk [] n false.

Inductive send_result (A : Type) :=
| Sent (c : t A)       (* the value was queued *)
| SendBlocks           (* buffer full: the sender parks *)
| SendPanics.          (* send on a closed channel *)
Arguments Sent {A} _.
Arguments SendBlocks {A}.
Arguments SendPanics {A}.

(** [c <- x] *)
Definition send {A} (c : t A) (x : A) : send_result A :=
  if closed c then SendPanics
  else if decide (length (buf c) < cap c)%nat
       then Sent (Mk (buf c ++ [x]) (cap c) false)
       else SendBlocks.

Inductive recv_result (A : Type) :=
| Received (x : A) (c : t A)
| RecvClosed           (* closed and drained: the zero value is received *)
| RecvBlocks.          (* open and empty: the receiver parks *)
Arguments Received {A} _ _.
Arguments RecvClosed {A}.
Arguments RecvBlocks {A}.

(** [<-c] *)
Definition recv {A} (c : t A) : recv_result A :=
  match buf c with
  | x :: rest => Received x (Mk rest (cap c) (closed c))
  | [] => if closed c then RecvClosed else RecvBlocks
  end.

(** [close(c)]; [None] is the panic of closing a closed channel. *)
Definition close {A} (c : t A) : option (t A) :=
  if closed c then None else Some (Mk (buf c) (cap c) true).

(** Room for one more value on an open channel. *)
Definition ready {A} (c : t A) : Prop :=
  closed c = false ∧ (length (buf c) < cap c)%nat.

End Chan.

(** ** Errors

    Go compares the values made by [errors.New] by identity, so each
    call site is a constructor of its own. *)

(** What a request method of [*Client] can return as its error: the
    error of [Send], or the error object the engine replied with. *)
Inductive call_error :=
| ResponseCatchingTimeout                      (* errors.New("response catching timeout") *)
| ResponseError (code : Z) (message : string).

Inductive error :=
| ErrNotSupportedAuthorizationState            (* errors.New("not supported state") *)
| AuthorizationTimeoutFinished                 (* errors.New("authorization timeout finished") *)
| CallError (e : call_error).

(** [time.Duration], in nanoseconds. *)
Definition Millisecond : Z := 1000000.
Definition Second : Z := 1000 * Millisecond.

(** ** client.go *)

Module Dispatch.

Record Request := { ReqType : string; ReqData : string; ReqExtra : string }.

(** The fields of [Response] that client.go reads: the raw payload
    and the correlation tag. *)
Record Response := { Data : string; Extra : string }.

Section WithDecoder.

(** The decoded form of a payload ([Type]) and its decoder
    ([UnmarshalType], [None] when it returns an error) are
    generated code outside client.go. *)
Context {TdType : Type} (UnmarshalType : string → option TdType).

(** The two fields [GetListener] sets.  listener.go is not among the
    sources: [IsActive()] and [Listeners()] are taken to read the flag
    and the registry. *)
Record Listener := { isActive : bool; Updates : Chan.t TdType }.

Record Client := {
  extraGenerator : nat → string;  (* the k-th tag the generator hands out *)
  extraCalls : nat;               (* tags handed out so far *)
  listenerStore : list Listener;
  catchersStore : gmap string (Chan.t Response);
  catchTimeout : Z;
  sent : list Request             (* what went to jsonClient.Send, oldest first *)
}.

Definition set_catchers (client : Client) (m : gmap string (Chan.t Response)) : Client :=
  {| extraGenerator := extraGenerator client; extraCalls := extraCalls client;
     listenerStore := listenerStore client; catchersStore := m;
     catchTimeout := catchTimeout client; sent := sent client |}.

Definition set_listeners (client : Client) (ls : list Listener) : Client :=
  {| extraGenerator := extraGenerator client; extraCalls := extraCalls client;
     listenerStore := ls; catchersStore := catchersStore client;
     catchTimeout := catchTimeout client; sent := sent client |}.

Definition Option := Client → Client.

Definition WithExtraGenerator (g : nat → string) : Option := fun client =>
  {| extraGenerator := g; extraCalls := extraCalls client;
     listenerStore := listenerStore client; catchersStore := catchersStore client;
     catchTimeout := catchTimeout client; sent := sent client |}.

Definition WithCatchTimeout (timeout : Z) : Option := fun client =>
  {| extraGenerator := extraGenerator client; extraCalls := extraCalls client;
     listenerStore := listenerStore client; catchersStore := catchersStore client;
     catchTimeout := timeout; sent := sent client |}.

(** [createClient], up to the start of the receiver goroutine: the
    defaults, then the options in order.  [uuid] stands for
    [UuidV4Generator()].  The options [WithProxy] and
    [WithLogVerbosity], which send requests, are left out. *)
Definition createClient (uuid : nat → string) (options : list Option) : Client :=
  let client :=
    {| extraGenerator := uuid; extraCalls := 0%nat;
       listenerStore := []; catchersStore := ∅;
       catchTimeout := 60 * Second; sent := [] |} in
  foldl (fun client option => option client) client options.

(** [GetListener] *)
Definition GetListener (client : Client) : Client * Listener :=
  let listener := {| isActive := true; Updates := Chan.make 1000 |} in
  (set_listeners client (listenerStore client ++ [listener]), listener).

(** How far a goroutine got. *)
Inductive status := Running | Blocked | Panicked.

(** Modelled from the spec: listener.go ([listenerStore.gc]) is not
    among the sources; the garbage collection removes the inactive
    entries and keeps the others in order. *)
Definition gc (ls : list Listener) : list Listener :=
  filter (λ l, isActive l = true) ls.

Definition set_Updates (l : Listener) (ch : Chan.t TdType) : Listener :=
  {| isActive := isActive l; Updates := ch |}.

(** The inner loop of [receiver]: one pass over the registry.  The
    result is the registry after the pass, [needGc], and whether the
    pass ran to its end; a pass that parks or panics on a listener
    leaves that listener and the ones after it untouched. *)
Fixpoint broadcast (typ : TdType) (ls : list Listener) : list Listener * bool * status :=
  match ls with
  | [] => ([], false, Running)
  | listener :: rest =>
      if isActive listener then
        match Chan.send (Updates listener) typ with
        | Chan.Sent ch =>
            let '(rest', needGc, s) := broadcast typ rest in
            (set_Updates listener ch :: rest', needGc, s)
        | Chan.SendBlocks => (listener :: rest, false, Blocked)
        | Chan.SendPanics => (listener :: rest, false, Panicked)
        end
      else
        let '(rest', _, s) := broadcast typ rest in
        (listener :: rest', true, s)
  end.

(** The first statement of the loop body: hand a tagged response to
    the catcher stored under its tag, if any. *)
Definition catch (client : Client) (response : Response) : Client * status :=
  if decide (Extra response ≠ "") then
    match catchersStore client !! Extra response with
    | Some catcher =>
        match Chan.send catcher response with
        | Chan.Sent catcher' =>
            (set_catchers client (<[Extra response := catcher']> (catchersStore client)),
             Running)
        | Chan.SendBlocks => (client, Blocked)
        | Chan.SendPanics => (client, Panicked)
        end
    | None => (client, Running)
    end
  else (client, Running).

(** The rest of the loop body: decode the payload and, when it
    decodes, pass it to the listeners and collect the garbage if
    the pass asked for it. *)
Definition publish (client : Client) (response : Response) : Client * status :=
  match UnmarshalType (Data response) with
  | None => (client, Running)     (* continue *)
  | Some typ =>
      let '(ls, needGc, s) := broadcast typ (listenerStore client) in
      match s with
      | Running => (set_listeners client (if needGc then gc ls else ls), Running)
      | _ => (set_listeners client ls, s)
      end
  end.

(** One iteration of the loop of [receiver]. *)
Definition receiver_step (client : Client) (response : Response) : Client * status :=
  match catch client response with
  | (client, Running) => publish client response
  | stuck => stuck
  end.

(** [receiver], over the responses taken from [client.responses];
    the loop goes no further than an iteration that parks or
    panics. *)
Fixpoint receiver (client : Client) (responses : list Response) : Client * status :=
  match responses with
  | [] => (client, Running)
  | response :: rest =>
      match receiver_step client response with
      | (client, Running) => receiver client rest
      | stuck => stuck
      end
  end.

(** [case response := <-catcher] of the [select] in [Send].  Between
    [Store] and the deferred [Delete] only the dispatch loop touches
    the entry, so the channel stored under the tag is [catcher]. *)
Definition poll (client : Client) (tag : string) : option Response :=
  match catchersStore client !! tag with
  | Some catcher =>
      match Chan.recv catcher with
      | Chan.Received response _ => Some response
      | _ => None
      end
  | None => None
  end.

(** The [select] of [Send].  [arrivals] is what the dispatch loop
    takes from [client.responses] from the moment the request is
    out, each response with its arrival time counted from that
    moment; the caller wakes as soon as its catcher holds a value.
    The loop hands a response to the catcher before it passes the
    payload to the listeners, so an iteration that parks on a
    listener may have filled the catcher first: the caller then
    still gets its response.  [None] is [ctx.Done()]: the deadline
    passed with the catcher still empty (also when the dispatch loop
    is parked and delivers nothing more). *)
Fixpoint await (client : Client) (tag : string) (deadline : Z)
    (arrivals : list (Z * Response)) : Client * status * option Response :=
  match poll client tag with
  | Some response => (client, Running, Some response)
  | None =>
      match arrivals with
      | (t, response) :: rest =>
          if decide (t < deadline) then
            match receiver_step client response with
            | (client, Running) => await client tag deadline rest
            | (client, Blocked) => (client, Blocked, poll client tag)
            | (client, Panicked) => (client, Panicked, None)
            end
          else (client, Running, None)
      | [] => (client, Running, None)
      end
  end.

Inductive send_outcome :=
| SendReturns (r : Response + error)
| SendCrashes.   (* the dispatch goroutine panicked: the process is gone *)

(** [Send].  The deferred function deletes the entry and closes
    [catcher], which no store refers to any more. *)
Definition Send (client : Client) (req : Request) (arrivals : list (Z * Response))
    : Client * send_outcome :=
  let tag := extraGenerator client (extraCalls client) in
  let req := {| ReqType := ReqType req; ReqData := ReqData req; ReqExtra := tag |} in
  let catcher : Chan.t Response := Chan.make 1 in
  let client :=
    {| extraGenerator := extraGenerator client; extraCalls := S (extraCalls client);
       listenerStore := listenerStore client;
       catchersStore := <[tag := catcher]> (catchersStore client);
       catchTimeout := catchTimeout client; sent := sent client ++ [req] |} in
  match await client tag (catchTimeout client) arrivals with
  | (client, Panicked, _) => (client, SendCrashes)
  | (client, _, got) =>
      (set_catchers client (delete tag (catchersStore client)),
       SendReturns match got with
                   | Some response => inl response
                   | None => inr (CallError ResponseCatchingTimeout)
                   end)
  end.

(** The stores never hold a channel that a send would panic on:
    catchers leave the store before they are closed, and a listener
    is deactivated when its queue is closed. *)
Definition no_closed_target (client : Client) : Prop :=
  (∀ tag ch, catchersStore client !! tag = Some ch → Chan.closed ch = false) ∧
  Forall (λ l, isActive l = true → Chan.closed (Updates l) = false) (listenerStore client).

(** *** Vocabulary for the properties of the loop *)

(** What a pass does to one listener when nothing stops it. *)
Definition deliver (typ : TdType) (l : Listener) : Listener :=
  if isActive l
  then set_Updates l (Chan.Mk (Chan.buf (Updates l) ++ [typ]) (Chan.cap (Updates l)) false)
  else l.

Definition saw_inactive (ls : list Listener) : bool := existsb (λ l, negb (isActive l)) ls.

(** Every active listener has an open queue with room. *)
Definition listeners_ready (ls : list Listener) : Prop :=
  Forall (λ l, isActive l = true → Chan.ready (Updates l)) ls.

Definition untagged (r : Response) : Response := {| Data := Data r; Extra := "" |}.

Definition open_if_active (l : Listener) : Prop :=
  isActive l = true → Chan.closed (Updates l) = false.

End WithDecoder.

End Dispatch.

(** ** What authorization.go sees of the engine *)

Module Engine.

(** Modelled from the spec: the [AuthorizationState] interface and
    the [TypeAuthorizationState...] constants are declared in type.go,
    which is not among the sources.  The states are the closed set of
    the specification, under the names the two revisions of
    authorization.go compare [AuthorizationStateType()] with; a state
    is represented by its type. *)
Inductive AuthorizationState :=
| WaitTdlibParameters
| WaitEncryptionKey
| WaitPhoneNumber
| WaitEmailAddress
| WaitEmailCode
| WaitCode
| WaitOtherDeviceConfirmation
| WaitRegistration
| WaitPassword
| Ready
| LoggingOut
| Closing
| Closed.

#[global] Instance AuthorizationState_eq_dec : EqDecision AuthorizationState.
Proof. solve_decision. Defined.

Record TdlibParameters := {
  UseTestDc : bool;
  DatabaseDirectory : string;
  FilesDirectory : string;
  DatabaseEncryptionKey : string;
  UseFileDatabase : bool;
  UseChatInfoDatabase : bool;
  UseMessageDatabase : bool;
  UseSecretChats : bool;
  ApiId : Z;
  ApiHash : string;
  SystemLanguageCode : string;
  DeviceModel : string;
  SystemVersion : string;
  ApplicationVersion : string;
  EnableStorageOptimizer : bool;
  IgnoreFileNames : bool
}.

Record PhoneNumberAuthenticationSettings := {
  AllowFlashCall : bool;
  IsCurrentPhoneNumber : bool;
  AllowSmsRetrieverApi : bool
}.

(** The request methods of [*Client] that authorization.go calls,
    with the request each one is given.  [SetTdlibParameters] takes
    the parameters field by field in authorization.go and as one
    (possibly nil) pointer in the other revision. *)
Module Api.
Inductive call :=
| GetAuthorizationState
| SetTdlibParameters (fields : TdlibParameters)
| SetTdlibParametersPtr (Parameters : option TdlibParameters)
| CheckDatabaseEncryptionKey
| SetAuthenticationPhoneNumber (PhoneNumber : string) (Settings : PhoneNumberAuthenticationSettings)
| CheckAuthenticationCode (Code : string)
| CheckAuthenticationPassword (Password : string)
| Close.
End Api.

(** The client as the authorization code uses it: the requests made
    so far, oldest first, and the error (if any) that the next
    request comes back with, which the engine and the transport
    decide.  The request methods themselves are generated code
    (function.go, not among the sources): each is a round trip through
    [Send] whose error is the one of [Send] or the engine's. *)
Record Client := {
  respond : list Api.call → Api.call → option call_error;
  calls : list Api.call
}.

Definition logged (client : Client) (c : Api.call) : Client :=
  {| respond := respond client; calls := calls client ++ [c] |}.

(** A request method: [_, err := client.M(req)]. *)
Definition request (client : Client) (c : Api.call) : Client * option error :=
  (logged client c, CallError <$> respond client (calls client) c).

(** [Context()]: [context.Background()], whose [Done()] is never
    ready, or a context that can be cancelled. *)
Inductive context := Background | Cancellable.

(** How a call of [Handle] ends. *)
Inductive handled (H : Type) :=
| Handled (h : H) (client : Client) (err : option error)
| HandleParks (h : H) (client : Client)     (* blocked on a channel for good *)
| HandlePanics (h : H) (client : Client).
Arguments Handled {H} _ _ _.
Arguments HandleParks {H} _ _.
Arguments HandlePanics {H} _ _.

(** [AuthorizationStateHandler], without [Error], which only
    [NewClient] and [NewClientAsync] call.  [Close] is [None] when it
    panics. *)
Class AuthorizationStateHandler (H : Type) := {
  Context : H → context;
  Handle : H → Client → AuthorizationState → handled H;
  Close : H → option H
}.

(** One turn of the [select] in [Authorize]: the timer fired
    ([time.After(AuthCheckTimeout)]) and [GetAuthorizationState]
    answered [r], or the context is done. *)
Inductive turn :=
| Tick (r : AuthorizationState + call_error)
| Done.

Inductive outcome :=
| Returns (err : option error)
| Parks          (* never leaves a call of Handle *)
| Panics
| Spins.         (* still in the loop when the schedule ends *)

(** A run of [Authorize]: how it ended, the client and the handler
    it left, the [time.Sleep]s it made and how many times it invoked
    the handler's [Close]. *)
Record execution (H : Type) := {
  result : outcome;
  client_after : Client;
  handler_after : H;
  sleeps : list Z;
  closes : nat
}.
Arguments result {H} _.
Arguments client_after {H} _.
Arguments handler_after {H} _.
Arguments sleeps {H} _.
Arguments closes {H} _.

Definition AuthCheckTimeout : Z := 1 * Millisecond.

(** How one pass of the [for] loop of [Authorize] ends: it goes
    round again, with the handler, the client and the value of
    [authorizationError] it leaves, or it ends the function. *)
Inductive pass (H : Type) :=
| Continue (h : H) (client : Client) (authorizationError : option error)
| Stop (o : outcome) (h : H) (client : Client) (slept : list Z).
Arguments Continue {H} _ _ _.
Arguments Stop {H} _ _ _ _.

(** [for { body }], one turn of the schedule per pass. *)
Fixpoint for_loop {H} (body : H → Client → option error → turn → pass H)
    (h : H) (client : Client) (authorizationError : option error)
    (schedule : list turn) : outcome * H * Client * list Z :=
  match schedule with
  | [] => (Spins, h, client, [])
  | t :: rest =>
      match body h client authorizationError t with
      | Continue h client authorizationError =>
          for_loop body h client authorizationError rest
      | Stop o h client slept => (o, h, client, slept)
      end
  end.

(** Where the loop stands after the given turns, when none of them
    ended it. *)
Fixpoint passes {H} (body : H → Client → option error → turn → pass H)
    (h : H) (client : Client) (authorizationError : option error)
    (turns : list turn) : option (H * Client * option error) :=
  match turns with
  | [] => Some (h, client, authorizationError)
  | t :: rest =>
      match body h client authorizationError t with
      | Continue h client authorizationError => passes body h client authorizationError rest
      | Stop _ _ _ _ => None
      end
  end.

(** [defer authorizationStateHandler.Close()]: runs when the function
    returns or panics, not while it is parked or looping. *)
Definition deferred_Close {H} `{AuthorizationStateHandler H}
    (run : outcome * H * Client * list Z) : execution H :=
  let '(o, h, client, slept) := run in
  match o with
  | Returns _ | Panics =>
      match Close h with
      | Some h' => {| result := o; client_after := client; handler_after := h';
                      sleeps := slept; closes := 1 |}
      | None => {| result := Panics; client_after := client; handler_after := h;
                   sleeps := slept; closes := 1 |}
      end
  | Parks | Spins =>
      {| result := o; client_after := client; handler_after := h;
         sleeps := slept; closes := 0 |}
  end.


(** [Handle] answers the states for which [refused] holds, and only
    those, with [ErrNotSupportedAuthorizationState]; it makes at most
    one request in a call, and none at all for ready, closing and
    closed, where it returns nil, nor when it does not return. *)
Definition answers {H : Type} (Handle : H → Client → AuthorizationState → handled H)
    (refused : AuthorizationState → bool) : Prop :=
  ∀ h client state,
    match Handle h client state with
    | Handled _ client' err =>
        (err = Some ErrNotSupportedAuthorizationState ↔ refused state = true)
        ∧ (∃ requests, calls client' = calls client ++ requests ∧ (length requests ≤ 1)%nat)
        ∧ (refused state = true → client' = client)
        ∧ (state = Ready ∨ state = Closing ∨ state = Closed → err = None ∧ client' = client)
    | HandleParks _ client' | HandlePanics _ client' => client' = client
    end.

End Engine.

(** ** client/authorization.go *)

Module Authorization.
Import Engine.

Section Authorize.

Context {H : Type} `{AuthorizationStateHandler H}.

(** The [select] of [Authorize]: one pass of its loop.  A [Done]
    turn is taken only by a handler whose context can be
    cancelled. *)
Definition select (h : H) (client : Client) (authorizationError : option error)
    (t : turn) : pass H :=
  match t with
  | Tick r =>
      let client := logged client Api.GetAuthorizationState in
      match r with
      | inr err => Stop (Returns (Some (CallError err))) h client []
      | inl state =>
          match Handle h client state with
          | Handled h client err =>
              let '(authorizationError, client) :=
                match err with
                | Some e => (Some e, (request client Api.Close).1)
                | None => (authorizationError, client)
                end in
              if decide (state = Closed) then Stop (Returns authorizationError) h client []
              else if decide (state = Ready) then Stop (Returns None) h client [1 * Second]
              else Continue h client authorizationError
          | HandleParks h client => Stop Parks h client []
          | HandlePanics h client => Stop Panics h client []
          end
      end
  | Done =>
      match Context h with
      | Cancellable => Stop (Returns None) h client []
      | Background => Continue h client authorizationError
      end
  end.

Definition Authorize (client : Client) (authorizationStateHandler : H)
    (schedule : list turn) : execution H :=
  deferred_Close (for_loop select authorizationStateHandler client None schedule).

End Authorize.

Record clientAuthorizer := {
  TdlibParametersChan : Chan.t (option TdlibParameters);   (* the field TdlibParameters *)
  PhoneNumber : Chan.t string;
  Code : Chan.t string;
  State : Chan.t AuthorizationState;
  Password : Chan.t string
}.

Definition ClientAuthorizer : clientAuthorizer :=
  {| TdlibParametersChan := Chan.make 1; PhoneNumber := Chan.make 1; Code := Chan.make 1;
     State := Chan.make 10; Password := Chan.make 1 |}.

Definition clientAuthorizer_Context (stateHandler : clientAuthorizer) : context := Background.

(** [x := <-ch] for a channel of strings; [None] when it blocks. *)
Definition recv_string (ch : Chan.t string) : option (string * Chan.t string) :=
  match Chan.recv ch with
  | Chan.Received x ch => Some (x, ch)
  | Chan.RecvClosed => Some ("", ch)
  | Chan.RecvBlocks => None
  end.

Definition clientAuthorizer_Handle (stateHandler : clientAuthorizer) (client : Client)
    (state : AuthorizationState) : handled clientAuthorizer :=
  match Chan.send (State stateHandler) state with
  | Chan.SendBlocks => HandleParks stateHandler client
  | Chan.SendPanics => HandlePanics stateHandler client
  | Chan.Sent st =>
      let h := {| TdlibParametersChan := TdlibParametersChan stateHandler;
                  PhoneNumber := PhoneNumber stateHandler; Code := Code stateHandler;
                  State := st; Password := Password stateHandler |} in
      match state with
      | WaitTdlibParameters =>
          match Chan.recv (TdlibParametersChan h) with
          | Chan.Received (Some p) ch =>
              let '(client, err) := request client (Api.SetTdlibParameters p) in
              Handled {| TdlibParametersChan := ch; PhoneNumber := PhoneNumber h;
                         Code := Code h; State := State h; Password := Password h |}
                      client err
          | Chan.Received None ch =>     (* p is nil: p.UseTestDc panics *)
              HandlePanics {| TdlibParametersChan := ch; PhoneNumber := PhoneNumber h;
                              Code := Code h; State := State h; Password := Password h |}
                           client
          | Chan.RecvClosed => HandlePanics h client
          | Chan.RecvBlocks => HandleParks h client
          end
      | WaitPhoneNumber =>
          match recv_string (PhoneNumber h) with
          | Some (phoneNumber, ch) =>
              let '(client, err) :=
                request client
                  (Api.SetAuthenticationPhoneNumber phoneNumber
                     {| AllowFlashCall := false; IsCurrentPhoneNumber := false;
                        AllowSmsRetrieverApi := false |}) in
              Handled {| TdlibParametersChan := TdlibParametersChan h; PhoneNumber := ch;
                         Code := Code h; State := State h; Password := Password h |}
                      client err
          | None => HandleParks h client
          end
      | WaitEmailAddress => Handled h client (Some ErrNotSupportedAuthorizationState)
      | WaitEmailCode => Handled h client (Some ErrNotSupportedAuthorizationState)
      | WaitCode =>
          match recv_string (Code h) with
          | Some (code, ch) =>
              let '(client, err) := request client (Api.CheckAuthenticationCode code) in
              Handled {| TdlibParametersChan := TdlibParametersChan h;
                         PhoneNumber := PhoneNumber h; Code := ch; State := State h;
                         Password := Password h |}
                      client err
          | None => HandleParks h client
          end
      | WaitOtherDeviceConfirmation => Handled h client (Some ErrNotSupportedAuthorizationState)
      | WaitRegistration => Handled h client (Some ErrNotSupportedAuthorizationState)
      | WaitPassword =>
          match recv_string (Password h) with
          | Some (password, ch) =>
              let '(client, err) := request client (Api.CheckAuthenticationPassword password) in
              Handled {| TdlibParametersChan := TdlibParametersChan h;
                         PhoneNumber := PhoneNumber h; Code := Code h; State := State h;
                         Password := ch |}
                      client err
          | None => HandleParks h client
          end
      | Ready => Handled h client None
      | LoggingOut => Handled h client (Some ErrNotSupportedAuthorizationState)
      | Closing => Handled h client None
      | Closed => Handled h client None
      | _ => Handled h client (Some ErrNotSupportedAuthorizationState)
      end
  end.

(** Five [close] statements in a row; a panic stops at the first
    channel that is closed already. *)
Definition clientAuthorizer_Close (stateHandler : clientAuthorizer) : option clientAuthorizer :=
  p ← Chan.close (TdlibParametersChan stateHandler);
  n ← Chan.close (PhoneNumber stateHandler);
  c ← Chan.close (Code stateHandler);
  s ← Chan.close (State stateHandler);
  w ← Chan.close (Password stateHandler);
  Some {| TdlibParametersChan := p; PhoneNumber := n; Code := c; State := s; Password := w |}.

#[global] Instance clientAuthorizer_handler : AuthorizationStateHandler clientAuthorizer :=
  {| Context := clientAuthorizer_Context;
     Handle := clientAuthorizer_Handle;
     Close := clientAuthorizer_Close |}.

Definition all_closed (h : clientAuthorizer) : Prop :=
  Chan.closed (TdlibParametersChan h) = true ∧ Chan.closed (PhoneNumber h) = true
  ∧ Chan.closed (Code h) = true ∧ Chan.closed (State h) = true
  ∧ Chan.closed (Password h) = true.

Definition all_open (h : clientAuthorizer) : Prop :=
  Chan.closed (TdlibParametersChan h) = false ∧ Chan.closed (PhoneNumber h) = false
  ∧ Chan.closed (Code h) = false ∧ Chan.closed (State h) = false
  ∧ Chan.closed (Password h) = false.

Definition handler_of (r : handled clientAuthorizer) : clientAuthorizer :=
  match r with Handled h _ _ | HandleParks h _ | HandlePanics h _ => h end.

End Authorization.

(** ** The other revision of authorization.go

    The repository carries a second authorization.go, written against
    the engine interface that still has the wait-encryption-key state
    and takes the parameters as one object.  Its [Authorize] differs
    in the cancellation case, its [clientAuthorizer.Handle] in the
    states it has a case for. *)

Module AuthorizationOther.
Import Engine.

Section Authorize.

Context {H : Type} `{AuthorizationStateHandler H}.

(** The [select] of [Authorize]: one pass of its loop.  A [Done]
    turn is taken only by a handler whose context can be
    cancelled. *)
Definition select (h : H) (client : Client) (authorizationError : option error)
    (t : turn) : pass H :=
  match t with
  | Tick r =>
      let client := logged client Api.GetAuthorizationState in
      match r with
      | inr err => Stop (Returns (Some (CallError err))) h client []
      | inl state =>
          match Handle h client state with
          | Handled h client err =>
              let '(authorizationError, client) :=
                match err with
                | Some e => (Some e, (request client Api.Close).1)
                | None => (authorizationError, client)
                end in
              if decide (state = Closed) then Stop (Returns authorizationError) h client []
              else if decide (state = Ready) then Stop (Returns None) h client [1 * Second]
              else Continue h client authorizationError
          | HandleParks h client => Stop Parks h client []
          | HandlePanics h client => Stop Panics h client []
          end
      end
  | Done =>
      match Context h with
      | Cancellable => 
          Stop (Returns (Some AuthorizationTimeoutFinished)) h
               (request client Api.Close).1 []
      | Background => Continue h client authorizationError
      end
  end.

Definition Authorize (client : Client) (authorizationStateHandler : H)
    (schedule : list turn) : execution H :=
  deferred_Close (for_loop select authorizationStateHandler client None schedule).

End Authorize.

Record clientAuthorizer := {
  TdlibParametersChan : Chan.t (option TdlibParameters);   (* the field TdlibParameters *)
  PhoneNumber : Chan.t string;
  Code : Chan.t string;
  State : Chan.t AuthorizationState;
  Password : Chan.t string
}.

Definition ClientAuthorizer : clientAuthorizer :=
  {| TdlibParametersChan := Chan.make 1; PhoneNumber := Chan.make 1; Code := Chan.make 1;
     State := Chan.make 10; Password := Chan.make 1 |}.

Definition clientAuthorizer_Context (stateHandler : clientAuthorizer) : context := Background.

Definition clientAuthorizer_Handle (stateHandler : clientAuthorizer) (client : Client)
    (state : AuthorizationState) : handled clientAuthorizer :=
  match Chan.send (State stateHandler) state with
  | Chan.SendBlocks => HandleParks stateHandler client
  | Chan.SendPanics => HandlePanics stateHandler client
  | Chan.Sent st =>
      let h := {| TdlibParametersChan := TdlibParametersChan stateHandler;
                  PhoneNumber := PhoneNumber stateHandler; Code := Code stateHandler;
                  State := st; Password := Password stateHandler |} in
      match state with
      | WaitTdlibParameters =>
          match Chan.recv (TdlibParametersChan h) with
          | Chan.Received p ch =>
              let '(client, err) := request client (Api.SetTdlibParametersPtr p) in
              Handled {| TdlibParametersChan := ch; PhoneNumber := PhoneNumber h;
                         Code := Code h; State := State h; Password := Password h |}
                      client err
          | Chan.RecvClosed =>
              let '(client, err) := request client (Api.SetTdlibParametersPtr None) in
              Handled h client err
          | Chan.RecvBlocks => HandleParks h client
          end
      | WaitEncryptionKey =>
          let '(client, err) := request client Api.CheckDatabaseEncryptionKey in
          Handled h client err
      | WaitPhoneNumber =>
          match Authorization.recv_string (PhoneNumber h) with
          | Some (phoneNumber, ch) =>
              let '(client, err) :=
                request client
                  (Api.SetAuthenticationPhoneNumber phoneNumber
                     {| AllowFlashCall := false; IsCurrentPhoneNumber := false;
                        AllowSmsRetrieverApi := false |}) in
              Handled {| TdlibParametersChan := TdlibParametersChan h; PhoneNumber := ch;
                         Code := Code h; State := State h; Password := Password h |}
                      client err
          | None => HandleParks h client
          end
      | WaitCode =>
          match Authorization.recv_string (Code h) with
          | Some (code, ch) =>
              let '(client, err) := request client (Api.CheckAuthenticationCode code) in
              Handled {| TdlibParametersChan := TdlibParametersChan h;
                         PhoneNumber := PhoneNumber h; Code := ch; State := State h;
                         Password := Password h |}
                      client err
          | None => HandleParks h client
          end
      | WaitRegistration => Handled h client (Some ErrNotSupportedAuthorizationState)
      | WaitPassword =>
          match Authorization.recv_string (Password h) with
          | Some (password, ch) =>
              let '(client, err) := request client (Api.CheckAuthenticationPassword password) in
              Handled {| TdlibParametersChan := TdlibParametersChan h;
                         PhoneNumber := PhoneNumber h; Code := Code h; State := State h;
                         Password := ch |}
                      client err
          | None => HandleParks h client
          end
      | Ready => Handled h client None
      | LoggingOut => Handled h client (Some ErrNotSupportedAuthorizationState)
      | Closing => Handled h client None
      | Closed => Handled h client None
      | _ => Handled h client (Some ErrNotSupportedAuthorizationState)
      end
  end.

Definition clientAuthorizer_Close (stateHandler : clientAuthorizer) : option clientAuthorizer :=
  p ← Chan.close (TdlibParametersChan stateHandler);
  n ← Chan.close (PhoneNumber stateHandler);
  c ← Chan.close (Code stateHandler);
  s ← Chan.close (State stateHandler);
  w ← Chan.close (Password stateHandler);
  Some {| TdlibParametersChan := p; PhoneNumber := n; Code := c; State := s; Password := w |}.

#[global] Instance clientAuthorizer_handler : AuthorizationStateHandler clientAuthorizer :=
  {| Context := clientAuthorizer_Context;
     Handle := clientAuthorizer_Handle;
     Close := clientAuthorizer_Close |}.

End AuthorizationOther.

(** A handler that accepts or refuses each state on the spot and
    makes no request: what a test plugs in, or an application that
    feeds the engine from elsewhere.  Its context may be one that can
    be cancelled. *)
Module Scripted.
Import Engine.

Record t := { ctx : context; verdict : AuthorizationState → option error }.

#[global] Instance handler : AuthorizationStateHandler t :=
  {| Context := ctx;
     Handle := λ h client state, Handled h client (verdict h state);
     Close := λ h, Some h |}.

Definition idle_engine : Client := {| respond := λ _ _, None; calls := [] |}.

End Scripted.

(** ** Inputs for the concrete runs of the dispatch loop *)

Module DispatchFixtures.
Import Dispatch.

(** A decoder for the examples: a payload decodes, to itself, when
    it starts with an opening brace. *)
Definition decode (data : string) : option string :=
  if String.prefix "{" data then Some data else None.

Definition tags (k : nat) : string := nth k ["a1"; "b2"; "c3"] "zz".

(** A fresh client with one listener and one call pending under the
    tag a1. *)
Definition client0 : Client (TdType := string) :=
  let client := (GetListener (createClient tags [])).1 in
  set_catchers client {[ "a1" := Chan.make 1 ]}.

Definition junk : Response := {| Data := "not json"; Extra := "" |}.
Definition late_reply : Response := {| Data := "{ok}"; Extra := "gone" |}.
Definition reply : Response := {| Data := "{ok}"; Extra := "a1" |}.
Definition update : Response := {| Data := "{updateNewMessage}"; Extra := "" |}.

End DispatchFixtures.

(** ** Inputs for the concrete runs of [Authorize] *)

Module AuthorizeFixtures.
Import Engine.

Definition parameters : TdlibParameters :=
  {| UseTestDc := false; DatabaseDirectory := ".tdlib/database";
     FilesDirectory := ".tdlib/files"; DatabaseEncryptionKey := "";
     UseFileDatabase := true; UseChatInfoDatabase := true; UseMessageDatabase := true;
     UseSecretChats := false; ApiId := 12345; ApiHash := "0123456789abcdef";
     SystemLanguageCode := "en"; DeviceModel := "Server"; SystemVersion := "1.0.0";
     ApplicationVersion := "1.0.0"; EnableStorageOptimizer := true;
     IgnoreFileNames := false |}.

(** The interactive handler once the application has queued the
    parameters and the operator a phone number and a code. *)
Definition operator : Authorization.clientAuthorizer :=
  {| Authorization.TdlibParametersChan := Chan.Mk [Some parameters] 1 false;
     Authorization.PhoneNumber := Chan.Mk ["+15550100"] 1 false;
     Authorization.Code := Chan.Mk ["12345"] 1 false;
     Authorization.State := Chan.make 10;
     Authorization.Password := Chan.make 1 |}.

(** A handler of the application's own, with a context that can be
    cancelled, that leaves every state to someone else. *)
Definition bystander : Scripted.t :=
  {| Scripted.ctx := Cancellable; Scripted.verdict := λ _, None |}.

(** A handler of the application's own whose [Handle] fails whatever
    the state. *)
Definition failing : Scripted.t :=
  {| Scripted.ctx := Background;
     Scripted.verdict := λ _, Some (CallError (ResponseError 500 "storage unavailable")) |}.

Definition login : list turn :=
  [Tick (inl WaitTdlibParameters); Tick (inl WaitPhoneNumber); Tick (inl WaitCode);
   Tick (inl Ready)].

(** The interactive handler of the other revision inside a struct of
    the application that overrides [Context()] with a context that
    can be cancelled; nothing has been queued on its channels. *)
Record cancelling := { inner : AuthorizationOther.clientAuthorizer }.

#[global] Instance cancelling_handler : AuthorizationStateHandler cancelling :=
  {| Context := λ _, Cancellable;
     Handle := λ h client state,
       match AuthorizationOther.clientAuthorizer_Handle (inner h) client state with
       | Handled i client err => Handled {| inner := i |} client err
       | HandleParks i client => HandleParks {| inner := i |} client
       | HandlePanics i client => HandlePanics {| inner := i |} client
       end;
     Close := λ h, (λ i, {| inner := i |}) <$> AuthorizationOther.clientAuthorizer_Close (inner h) |}.

Definition silent_operator : cancelling := {| inner := AuthorizationOther.ClientAuthorizer |}.

End AuthorizeFixtures.

(** ** More vocabulary for client.go *)

Module DispatchSpec.
Import Dispatch.

Section WithDecoder.

Context {TdType : Type} (UnmarshalType : string → option TdType).

(** [Send] up to and including [client.jsonClient.Send(req)]: the tag
    is drawn, the catcher stored under it, the request handed to the
    transport. *)
Definition registered (client : Client (TdType := TdType)) (req : Request) : Client :=
  let tag := extraGenerator client (extraCalls client) in
  {| extraGenerator := extraGenerator client; extraCalls := S (extraCalls client);
     listenerStore := listenerStore client;
     catchersStore := <[tag := Chan.make 1]> (catchersStore client);
     catchTimeout := catchTimeout client;
     sent := sent client ++ [{| ReqType := ReqType req; ReqData := ReqData req;
                                ReqExtra := tag |}] |}.

(** The payloads of the responses that decode, in order. *)
Definition decoded (rs : list Response) : list TdType :=
  omap (λ r, UnmarshalType (Data r)) rs.

(** Every listener is active, with an open queue that has room for
    [k] more updates. *)
Definition roomy (k : nat) (ls : list (Listener (TdType := TdType))) : Prop :=
  Forall (λ l, isActive l = true ∧ Chan.closed (Updates l) = false
               ∧ (length (Chan.buf (Updates l)) + k ≤ Chan.cap (Updates l))%nat) ls.

(** The listener with [typs] appended to its queue. *)
Definition queued (typs : list TdType) (l : Listener (TdType := TdType)) : Listener :=
  set_Updates l (Chan.Mk (Chan.buf (Updates l) ++ typs) (Chan.cap (Updates l)) false).

(** The message is handed to no catcher: it has no tag or nothing is
    stored under its tag. *)
Definition unmatched (client : Client (TdType := TdType)) (r : Response) : Prop :=
  Extra r = "" ∨ catchersStore client !! Extra r = None.

(** A pending call is waiting for the message and its catcher has
    room. *)
Definition awaited (client : Client (TdType := TdType)) (r : Response) : Prop :=
  Extra r ≠ "" ∧ ∃ catcher, catchersStore client !! Extra r = Some catcher ∧ Chan.ready catcher.

(** What the loop leaves alone: the generator and its counter, the
    timeout and the requests sent. *)
Definition same_settings (client client' : Client (TdType := TdType)) : Prop :=
  extraGenerator client' = extraGenerator client ∧ extraCalls client' = extraCalls client
  ∧ catchTimeout client' = catchTimeout client ∧ sent client' = sent client.

(** An option that only sets a field of the client: the two options
    of client.go that make no request. *)
Definition setting (option : Option (TdType := TdType)) : Prop :=
  (∃ g, option = WithExtraGenerator g) ∨ (∃ timeout, option = WithCatchTimeout timeout).

End WithDecoder.

End DispatchSpec.

(** * Properties *)

(** ** The dispatch loop and [Send] *)

Section DispatchProperties.

Import Dispatch.

Context {TdType : Type} (UnmarshalType : string → option TdType).

Implicit Types (client : Client (TdType := TdType)) (l : Listener (TdType := TdType)).
Implicit Types (ls : list (Listener (TdType := TdType))) (r : Response) (typ : TdType).

Lemma send_ready {A} (c : Chan.t A) (x : A) :
  Chan.ready c → Chan.send c x = Chan.Sent (Chan.Mk (Chan.buf c ++ [x]) (Chan.cap c) false).
Proof.
  intros [Hopen Hroom]. unfold Chan.send. rewrite Hopen.
  destruct (decide _) as [_|Hfull]; [reflexivity | contradiction].
Qed.

Lemma send_not_ready {A} (c : Chan.t A) (x : A) :
  ¬ Chan.ready c → Chan.send c x = Chan.SendBlocks ∨ Chan.send c x = Chan.SendPanics.
Proof.
  intros Hnot. unfold Chan.send. destruct (Chan.closed c) eqn:Hc; [by right|].
  destruct (decide _) as [Hroom|_]; [|by left].
  exfalso. apply Hnot. by split.
Qed.

Lemma send_open {A} (c : Chan.t A) (x : A) :
  Chan.closed c = false → Chan.send c x ≠ Chan.SendPanics.
Proof. intros Hc. unfold Chan.send. rewrite Hc. by destruct (decide _). Qed.

Lemma broadcast_ready typ ls :
  listeners_ready ls →
  broadcast typ ls = (deliver typ <$> ls, saw_inactive ls, Running).
Proof.
  induction 1 as [|l ls Hl _ IH]; [reflexivity|].
  cbn [broadcast fmap list_fmap saw_inactive existsb]. unfold deliver at 1.
  destruct (isActive l) eqn:Hact.
  - rewrite (send_ready _ _ (Hl eq_refl)), IH. reflexivity.
  - rewrite IH. reflexivity.
Qed.

Lemma broadcast_stops typ pre l post :
  listeners_ready pre → isActive l = true → ¬ Chan.ready (Updates l) →
  ∃ needGc s, broadcast typ (pre ++ l :: post) = ((deliver typ <$> pre) ++ l :: post, needGc, s)
              ∧ s ≠ Running.
Proof.
  intros Hpre Hact Hnot.
  induction Hpre as [|p pre Hp _ IH].
  - cbn [app fmap list_fmap broadcast]. rewrite Hact.
    destruct (send_not_ready (Updates l) typ Hnot) as [-> | ->]; eauto.
  - destruct IH as (needGc & s & IH & Hs).
    cbn [app fmap list_fmap broadcast]. unfold deliver at 1.
    destruct (isActive p) eqn:Hpa.
    + rewrite (send_ready _ _ (Hp eq_refl)), IH. eauto.
    + rewrite IH. eauto.
Qed.

Lemma saw_inactive_spec ls :
  saw_inactive ls = true ↔ Exists (λ l, isActive l = false) ls.
Proof.
  unfold saw_inactive. rewrite existsb_exists, Exists_exists.
  split; intros (l & Hin & Hl); exists l.
  - apply list_elem_of_In in Hin. split; [done|]. by destruct (isActive l).
  - split; [by apply list_elem_of_In|]. by rewrite Hl.
Qed.

Lemma catch_unmatched client r :
  Extra r = "" ∨ catchersStore client !! Extra r = None →
  catch client r = (client, Running).
Proof.
  intros Hno. unfold catch.
  destruct (decide (Extra r ≠ "")) as [Hne|_]; [|reflexivity].
  destruct Hno as [He|Hnone]; [contradiction|]. by rewrite Hnone.
Qed.

Lemma catch_listeners client r :
  listenerStore (catch client r).1 = listenerStore client.
Proof.
  unfold catch. destruct (decide _); [|reflexivity].
  destruct (catchersStore client !! Extra r) as [ch|]; [|reflexivity].
  by destruct (Chan.send ch r).
Qed.

Lemma publish_catchers client r :
  catchersStore (publish UnmarshalType client r).1 = catchersStore client.
Proof.
  unfold publish. destruct (UnmarshalType (Data r)) as [typ|]; [|reflexivity].
  destruct (broadcast typ (listenerStore client)) as [[ls needGc] s].
  by destruct s.
Qed.

Lemma publish_ready client r typ :
  UnmarshalType (Data r) = Some typ →
  listeners_ready (listenerStore client) →
  publish UnmarshalType client r =
    (set_listeners client
       (if saw_inactive (listenerStore client)
        then gc (deliver typ <$> listenerStore client)
        else deliver typ <$> listenerStore client),
     Running).
Proof.
  intros Hdec Hready. unfold publish. rewrite Hdec.
  by rewrite (broadcast_ready _ _ Hready).
Qed.

Lemma publish_running client r :
  listeners_ready (listenerStore client) →
  (publish UnmarshalType client r).2 = Running.
Proof.
  intros Hready. destruct (UnmarshalType (Data r)) as [typ|] eqn:Hdec.
  - by rewrite (publish_ready _ _ typ).
  - unfold publish. by rewrite Hdec.
Qed.

Lemma receiver_cons_running client client' r rest :
  receiver_step UnmarshalType client r = (client', Running) →
  receiver UnmarshalType client (r :: rest) = receiver UnmarshalType client' rest.
Proof. intros Hstep. cbn [receiver]. by rewrite Hstep. Qed.

(** C8.  A message that no pending call is waiting for (it has no
    tag, or no catcher is stored under its tag) and whose payload
    does not decode leaves the whole client as it was: no listener
    receives anything, nothing is reported, and the loop goes on with
    the next message. *)
Theorem undecodable_message_dropped client r :
  Extra r = "" ∨ catchersStore client !! Extra r = None →
  UnmarshalType (Data r) = None →
  receiver_step UnmarshalType client r = (client, Running)
  ∧ ∀ rest, receiver UnmarshalType client (r :: rest) = receiver UnmarshalType client rest.
Proof.
  intros Hno Hdec.
  assert (receiver_step UnmarshalType client r = (client, Running)) as Hstep.
  { unfold receiver_step. rewrite (catch_unmatched _ _ Hno).
    unfold publish. by rewrite Hdec. }
  split; [exact Hstep|]. intros rest. by apply receiver_cons_running.
Qed.

(** C9.  One pass over the registry, every active listener having
    room: the update is appended to the queue of each active
    listener, the inactive ones are left alone, and the garbage
    collection runs exactly when the pass met an inactive listener.
    Registry order: a pass that is stopped at a listener has served
    the active listeners before it and none from it on. *)
Theorem broadcast_pass client r typ :
  UnmarshalType (Data r) = Some typ →
  listeners_ready (listenerStore client) →
  broadcast typ (listenerStore client)
    = (deliver typ <$> listenerStore client, saw_inactive (listenerStore client), Running)
  ∧ publish UnmarshalType client r
    = (set_listeners client
         (if saw_inactive (listenerStore client)
          then gc (deliver typ <$> listenerStore client)
          else deliver typ <$> listenerStore client),
       Running)
  ∧ (saw_inactive (listenerStore client) = true
     ↔ Exists (λ l, isActive l = false) (listenerStore client))
  ∧ (∀ l, deliver typ l =
          if isActive l
          then {| isActive := true;
                  Updates := Chan.Mk (Chan.buf (Updates l) ++ [typ]) (Chan.cap (Updates l)) false |}
          else l)
  ∧ (∀ pre l post, listeners_ready pre → isActive l = true → ¬ Chan.ready (Updates l) →
     ∃ needGc s, broadcast typ (pre ++ l :: post)
                 = ((deliver typ <$> pre) ++ l :: post, needGc, s) ∧ s ≠ Running).
Proof.
  intros Hdec Hready.
  split; [by apply broadcast_ready|].
  split; [by apply publish_ready|].
  split; [apply saw_inactive_spec|].
  split.
  - intros l. unfold deliver, set_Updates. by destruct (isActive l).
  - intros pre l post. apply broadcast_stops.
Qed.

(** *** Nothing in the stores makes the loop panic *)

Lemma broadcast_no_panic typ ls :
  Forall open_if_active ls →
  (broadcast typ ls).2 ≠ Panicked ∧ Forall open_if_active (broadcast typ ls).1.1.
Proof.
  induction 1 as [|l ls Hl Hls [IHs IHf]]; [by split|].
  cbn [broadcast]. destruct (isActive l) eqn:Hact.
  - pose proof (send_open (Updates l) typ (Hl Hact)) as Hsend.
    unfold Chan.send in *. destruct (Chan.closed (Updates l)); [done|].
    destruct (decide _).
    + destruct (broadcast typ ls) as [[ls' needGc] s]. simpl in *.
      split; [done|]. constructor; [|done]. by intros _.
    + simpl. split; [done|]. constructor; [done|done].
  - destruct (broadcast typ ls) as [[ls' needGc] s]. simpl in *.
    split; [done|]. constructor; [|done]. intros Hact'. congruence.
Qed.

Lemma gc_open ls : Forall open_if_active ls → Forall open_if_active (gc ls).
Proof.
  rewrite !Forall_forall. intros Hls l Hin.
  apply list_elem_of_filter in Hin as [_ Hin]. by apply Hls.
Qed.

Lemma publish_no_panic client r :
  no_closed_target client →
  (publish UnmarshalType client r).2 ≠ Panicked
  ∧ no_closed_target (publish UnmarshalType client r).1.
Proof.
  intros [Hc Hl]. unfold publish.
  destruct (UnmarshalType (Data r)) as [typ|]; [|by split].
  destruct (broadcast_no_panic typ _ Hl) as [Hs Hf].
  destruct (broadcast typ (listenerStore client)) as [[ls needGc] s]. simpl in *.
  destruct s; try done; (split; [done|]); split; simpl; try done.
  destruct needGc; [by apply gc_open|done].
Qed.

Lemma catch_no_panic client r :
  no_closed_target client →
  (catch client r).2 ≠ Panicked ∧ no_closed_target (catch client r).1.
Proof.
  intros [Hc Hl]. unfold catch.
  destruct (decide _) as [Hne|]; [|by split].
  destruct (catchersStore client !! Extra r) as [ch|] eqn:Hlook; [|by split].
  pose proof (Hc _ _ Hlook) as Hopen. unfold Chan.send. rewrite Hopen.
  destruct (decide _); [|by split].
  simpl. split; [done|]. split; simpl; [|done].
  intros tag ch'. rewrite lookup_insert.
  destruct (decide (Extra r = tag)); [|by apply Hc].
  by intros [= <-].
Qed.

Lemma receiver_step_no_panic client r :
  no_closed_target client →
  (receiver_step UnmarshalType client r).2 ≠ Panicked
  ∧ no_closed_target (receiver_step UnmarshalType client r).1.
Proof.
  intros Hwf. destruct (catch_no_panic client r Hwf) as [Hs Hwf'].
  unfold receiver_step. destruct (catch client r) as [c s]. simpl in *.
  destruct s; [by apply publish_no_panic| by split | done].
Qed.

Lemma catch_other_tag client r tag :
  Extra r ≠ tag → catchersStore (catch client r).1 !! tag = catchersStore client !! tag.
Proof.
  intros Hne. unfold catch. destruct (decide _); [|reflexivity].
  destruct (catchersStore client !! Extra r) as [ch|]; [|reflexivity].
  destruct (Chan.send ch r); try reflexivity.
  simpl. by rewrite lookup_insert_ne.
Qed.

Lemma receiver_step_other_tag client r tag :
  Extra r ≠ tag →
  catchersStore (receiver_step UnmarshalType client r).1 !! tag = catchersStore client !! tag.
Proof.
  intros Hne. rewrite <- (catch_other_tag client r tag Hne).
  unfold receiver_step. destruct (catch client r) as [c s]. simpl.
  destruct s; [by rewrite publish_catchers | reflexivity | reflexivity].
Qed.

Lemma poll_lookup client client' tag :
  catchersStore client' !! tag = catchersStore client !! tag →
  poll client' tag = poll client tag.
Proof. unfold poll. by intros ->. Qed.

Lemma await_times_out tag deadline arrivals : ∀ client,
  no_closed_target client →
  poll client tag = None →
  (∀ t r, (t, r) ∈ arrivals → t < deadline → Extra r ≠ tag) →
  ∃ client' s, await UnmarshalType client tag deadline arrivals = (client', s, None)
               ∧ s ≠ Panicked.
Proof.
  induction arrivals as [|[t r] rest IH]; intros client Hwf Hpoll Hno; cbn [await];
    rewrite Hpoll.
  - by exists client, Running.
  - destruct (decide (t < deadline)) as [Hlt|]; [|by exists client, Running].
    assert (Extra r ≠ tag) as Hne by (apply (Hno t); [left|done]).
    destruct (receiver_step_no_panic client r Hwf) as [Hs Hwf'].
    pose proof (receiver_step_other_tag client r tag Hne) as Hsame.
    destruct (receiver_step UnmarshalType client r) as [c s]. simpl in *.
    destruct s.
    + apply IH; [done| |].
      * by rewrite (poll_lookup client c).
      * intros t' r' Hin. apply Hno. by right.
    + exists c, Blocked. rewrite (poll_lookup client c tag Hsame), Hpoll. by split.
    + done.
Qed.

(** C7.  A message whose tag has no entry in the catchers' store is
    handed to no pending call: the store is left exactly as it was,
    so no call is resolved and no other call is touched.  The message
    is not discarded: the loop treats the payload as it treats any
    payload, so one that decodes is queued for every active listener.
    The loop does not panic on it, and with room in the active
    listeners' queues it goes on with the next message. *)
Theorem unmatched_reply_resolves_no_call client r :
  catchersStore client !! Extra r = None →
  catch client r = (client, Running)
  ∧ receiver_step UnmarshalType client r = publish UnmarshalType client r
  ∧ (∀ typ, UnmarshalType (Data r) = Some typ → listeners_ready (listenerStore client) →
       listenerStore (receiver_step UnmarshalType client r).1
       = if saw_inactive (listenerStore client)
         then gc (deliver typ <$> listenerStore client)
         else deliver typ <$> listenerStore client)
  ∧ catchersStore (receiver_step UnmarshalType client r).1 = catchersStore client
  ∧ (no_closed_target client → (receiver_step UnmarshalType client r).2 ≠ Panicked)
  ∧ (listeners_ready (listenerStore client) →
     (receiver_step UnmarshalType client r).2 = Running
     ∧ ∀ rest, receiver UnmarshalType client (r :: rest)
               = receiver UnmarshalType (receiver_step UnmarshalType client r).1 rest).
Proof.
  intros Hnone.
  assert (catch client r = (client, Running)) as Hcatch
    by (apply catch_unmatched; by right).
  assert (receiver_step UnmarshalType client r = publish UnmarshalType client r) as Hstep
    by (unfold receiver_step; by rewrite Hcatch).
  split; [exact Hcatch|]. split; [exact Hstep|].
  split; [intros typ Hdec Hready; by rewrite Hstep, (publish_ready _ _ typ)|].
  split; [rewrite Hstep; apply publish_catchers|].
  split; [intros Hwf; by apply receiver_step_no_panic|].
  rewrite Hstep.
  intros Hready. pose proof (publish_running client r Hready) as Hrun.
  split; [exact Hrun|]. intros rest. apply receiver_cons_running.
  rewrite Hstep. destruct (publish UnmarshalType client r) as [c s].
  simpl in *. by subst s.
Qed.

(** C6.  A call of [Send] to which no reply comes before the
    deadline ([catchTimeout] after the request went out; 60 seconds
    unless the option [WithCatchTimeout] set another value) returns
    the timeout error, and when it returns the catchers' store has
    no entry under the tag of the call. *)
Theorem Send_times_out client req arrivals :
  no_closed_target client →
  (∀ t r, (t, r) ∈ arrivals → t < catchTimeout client →
          Extra r ≠ extraGenerator client (extraCalls client)) →
  (Send UnmarshalType client req arrivals).2
    = SendReturns (inr (CallError ResponseCatchingTimeout))
  ∧ catchersStore (Send UnmarshalType client req arrivals).1
      !! extraGenerator client (extraCalls client) = None
  ∧ (∀ uuid, catchTimeout (createClient (TdType := TdType) uuid []) = 60 * Second)
  ∧ (∀ uuid options d,
       catchTimeout (createClient (TdType := TdType) uuid (options ++ [WithCatchTimeout d])) = d).
Proof.
  intros [Hc Hl] Hno. unfold Send.
  set (tag := extraGenerator client (extraCalls client)) in *.
  match goal with |- context [await _ ?c _ _ _] => set (client1 := c) end.
  assert (no_closed_target client1) as Hwf1.
  { split; simpl; [|done]. intros k ch. rewrite lookup_insert.
    destruct (decide (tag = k)); [by intros [= <-] | by apply Hc]. }
  assert (poll client1 tag = None) as Hpoll.
  { unfold poll. simpl. by rewrite lookup_insert_eq. }
  destruct (await_times_out tag (catchTimeout client1) arrivals client1 Hwf1 Hpoll Hno)
    as (client2 & s & -> & Hs).
  repeat split.
  - by destruct s.
  - destruct s; simpl; try done; apply lookup_delete_eq.
  - intros uuid options d. unfold createClient. by rewrite foldl_app.
Qed.

Lemma publish_same_listeners client1 client2 r1 r2 :
  listenerStore client1 = listenerStore client2 → Data r1 = Data r2 →
  listenerStore (publish UnmarshalType client1 r1).1
    = listenerStore (publish UnmarshalType client2 r2).1
  ∧ (publish UnmarshalType client1 r1).2 = (publish UnmarshalType client2 r2).2.
Proof.
  intros Hls Hdata. unfold publish. rewrite Hls, Hdata.
  destruct (UnmarshalType (Data r2)) as [typ|]; [|by split].
  destruct (broadcast typ (listenerStore client2)) as [[ls needGc] s].
  by destruct s.
Qed.

(** C2, as the code has it.  A message with a tag touches no entry
    of the catchers' store but the one under its tag.  With nothing
    stored under the tag nothing is handed over; a catcher with room
    stored there receives the message.  In both cases the message is
    then decoded and passed to the listeners exactly as the same
    payload without a tag is: tagged replies are not kept away from
    the listeners.  A catcher without room stops the loop at the
    hand-over, before the payload is decoded: the loop parks on a
    full catcher (panics on a closed one), the client is as it was
    and nothing behind the message is processed. *)
Theorem tagged_reply_also_published client r :
  Extra r ≠ "" →
  (∀ tag, tag ≠ Extra r →
     catchersStore (receiver_step UnmarshalType client r).1 !! tag
     = catchersStore client !! tag)
  ∧ (catchersStore client !! Extra r = None →
       catchersStore (receiver_step UnmarshalType client r).1 = catchersStore client)
  ∧ (∀ catcher, catchersStore client !! Extra r = Some catcher → Chan.ready catcher →
       catchersStore (receiver_step UnmarshalType client r).1 !! Extra r
         = Some (Chan.Mk (Chan.buf catcher ++ [r]) (Chan.cap catcher) false))
  ∧ (catchersStore client !! Extra r = None
     ∨ (∃ catcher, catchersStore client !! Extra r = Some catcher ∧ Chan.ready catcher) →
       listenerStore (receiver_step UnmarshalType client r).1
         = listenerStore (receiver_step UnmarshalType client (untagged r)).1
       ∧ (receiver_step UnmarshalType client r).2
         = (receiver_step UnmarshalType client (untagged r)).2)
  ∧ (∀ catcher, catchersStore client !! Extra r = Some catcher → ¬ Chan.ready catcher →
       receiver_step UnmarshalType client r
         = (client, if Chan.closed catcher then Panicked else Blocked)
       ∧ ∀ rest, receiver UnmarshalType client (r :: rest)
                 = (client, if Chan.closed catcher then Panicked else Blocked)).
Proof.
  intros Htag.
  assert (receiver_step UnmarshalType client (untagged r)
          = publish UnmarshalType client (untagged r)) as Hun.
  { unfold receiver_step. rewrite catch_unmatched; [done | by left]. }
  assert (catchersStore client !! Extra r = None →
          receiver_step UnmarshalType client r = publish UnmarshalType client r) as Hnone.
  { intros Hlook. unfold receiver_step. rewrite catch_unmatched; [done | by right]. }
  assert (∀ catcher, catchersStore client !! Extra r = Some catcher → Chan.ready catcher →
          receiver_step UnmarshalType client r
          = publish UnmarshalType
              (set_catchers client
                 (<[Extra r := Chan.Mk (Chan.buf catcher ++ [r]) (Chan.cap catcher) false]>
                    (catchersStore client))) r) as Hsome.
  { intros catcher Hlook Hready. unfold receiver_step, catch.
    destruct (decide (Extra r ≠ "")) as [_|]; [|done].
    by rewrite Hlook, (send_ready _ _ Hready). }
  split; [intros tag Hne; by apply receiver_step_other_tag|].
  split; [intros Hlook; rewrite (Hnone Hlook); apply publish_catchers|].
  split.
  { intros catcher Hlook Hready. rewrite (Hsome catcher Hlook Hready), publish_catchers.
    simpl. by rewrite lookup_insert_eq. }
  split.
  { rewrite Hun. intros [Hlook | (catcher & Hlook & Hready)].
    - rewrite (Hnone Hlook). by apply publish_same_listeners.
    - rewrite (Hsome catcher Hlook Hready). by apply publish_same_listeners. }
  intros catcher Hlook Hnot.
  assert (receiver_step UnmarshalType client r
          = (client, if Chan.closed catcher then Panicked else Blocked)) as Hstep.
  { unfold receiver_step, catch.
    destruct (decide (Extra r ≠ "")) as [_|]; [|done].
    rewrite Hlook. unfold Chan.send. destruct (Chan.closed catcher) eqn:Hc; [done|].
    destruct (decide _) as [Hroom|]; [|done]. exfalso. apply Hnot. by split. }
  split; [exact Hstep|].
  intros rest. cbn [receiver]. rewrite Hstep. by destruct (Chan.closed catcher).
Qed.

End DispatchProperties.

(** *** Concrete runs of the dispatch loop *)

Module DispatchExamples.
Import Dispatch.
Import DispatchFixtures.

Lemma client0_ready : listeners_ready (listenerStore client0).
Proof.
  constructor; [|constructor]. intros _. split; [reflexivity|]. simpl. lia.
Qed.

Lemma client0_open : no_closed_target client0.
Proof.
  split.
  - intros tag ch. simpl. rewrite lookup_singleton.
    destruct (decide _); [by intros [= <-] | done].
  - constructor; [|constructor]. by intros _.
Qed.

Lemma undecodable_message_dropped_witness :
  receiver_step decode client0 junk = (client0, Running)
  ∧ ∀ rest, receiver decode client0 (junk :: rest) = receiver decode client0 rest.
Proof.
  apply (undecodable_message_dropped decode client0 junk); [by left | reflexivity].
Defined.

Lemma unmatched_reply_resolves_no_call_witness :
  catchersStore (receiver_step decode client0 late_reply).1 = catchersStore client0
  ∧ (receiver_step decode client0 late_reply).2 = Running.
Proof.
  destruct (unmatched_reply_resolves_no_call decode client0 late_reply)
    as (_ & _ & _ & Hsame & _ & Hgo); [reflexivity|].
  split; [exact Hsame|]. exact (proj1 (Hgo client0_ready)).
Defined.

(** C7 as the specification words it fails: a reply that comes after
    its call has gone finds no catcher, and is queued for the
    listener all the same. *)
Lemma unmatched_reply_reaches_listener :
  ¬ (∀ (client : Client (TdType := string)) r,
       catchersStore client !! Extra r = None →
       listenerStore (receiver_step decode client r).1 = listenerStore client)
  ∧ catchersStore client0 !! Extra late_reply = None
  ∧ catchersStore (receiver_step decode client0 late_reply).1 = catchersStore client0
  ∧ listenerStore (receiver_step decode client0 late_reply).1
    = [{| isActive := true; Updates := Chan.Mk ["{ok}"] 1000 false |}].
Proof.
  split; [|repeat split].
  intros Hclaim. specialize (Hclaim client0 late_reply eq_refl). discriminate Hclaim.
Qed.

Lemma broadcast_pass_witness :
  publish decode client0 update
  = (set_listeners client0
       [{| isActive := true; Updates := Chan.Mk ["{updateNewMessage}"] 1000 false |}],
     Running).
Proof.
  destruct (broadcast_pass decode client0 update "{updateNewMessage}" eq_refl client0_ready)
    as (_ & Hpub & _).
  exact Hpub.
Defined.

Lemma Send_times_out_witness :
  let req := {| ReqType := "getMe"; ReqData := "{}"; ReqExtra := "" |} in
  let arrivals := [(59 * Second, late_reply);
                   (60 * Second, {| Data := "{user}"; Extra := "a1" |})] in
  (Send decode (createClient tags []) req arrivals).2
    = SendReturns (inr (CallError ResponseCatchingTimeout))
  ∧ catchersStore (Send decode (createClient tags []) req arrivals).1 !! "a1" = None.
Proof.
  intros req arrivals.
  destruct (Send_times_out decode (createClient tags []) req arrivals) as (Hret & Hgone & _).
  - split; [|constructor]. intros tag ch. simpl. by rewrite lookup_empty.
  - intros t r Hin Hlt. simpl in Hlt.
    apply elem_of_cons in Hin as [[= -> ->] | Hin]; [done|].
    apply elem_of_cons in Hin as [[= -> ->] | Hin]; [|by apply elem_of_nil in Hin].
    unfold Second, Millisecond in Hlt. lia.
  - split; [exact Hret | exact Hgone].
Defined.

(** C2 as the specification words it fails: the reply to the call
    pending under a1 is handed to the catcher of that call and is
    queued for the listener as well. *)
Lemma tagged_reply_reaches_listener :
  ¬ (∀ (client : Client (TdType := string)) r,
       Extra r ≠ "" →
       listenerStore (receiver_step decode client r).1 = listenerStore client)
  ∧ catchersStore (receiver_step decode client0 reply).1 !! "a1"
    = Some (Chan.Mk [reply] 1 false)
  ∧ listenerStore (receiver_step decode client0 reply).1
    = [{| isActive := true; Updates := Chan.Mk ["{ok}"] 1000 false |}].
Proof.
  split; [|split; reflexivity].
  intros Hclaim. specialize (Hclaim client0 reply). discriminate Hclaim. discriminate.
Qed.

Lemma tagged_reply_also_published_witness :
  listenerStore (receiver_step decode client0 reply).1
  = listenerStore (receiver_step decode client0 (untagged reply)).1.
Proof.
  destruct (tagged_reply_also_published decode client0 reply) as (_ & _ & _ & Hpub & _);
    [done|].
  refine (proj1 (Hpub (or_intror (ex_intro _ (Chan.make 1) (conj eq_refl _))))).
  split; [reflexivity | simpl; lia].
Defined.

(** The second message under one tag finds the catcher's one slot
    taken: the loop parks on it, and the update behind it reaches no
    listener. *)
Example second_reply_parks_loop :
  receiver decode client0 [reply; reply; update]
  = (set_listeners
       (set_catchers client0 {[ "a1" := Chan.Mk [reply] 1 false ]})
       [{| isActive := true; Updates := Chan.Mk ["{ok}"] 1000 false |}],
     Blocked).
Proof. reflexivity. Qed.

End DispatchExamples.

(** ** Authorize *)

Section LoopProperties.

Import Engine.

Context {H : Type} (body : H → Client → option error → turn → pass H).

Lemma for_loop_app pre rest : ∀ h client a h1 c1 a1,
  passes body h client a pre = Some (h1, c1, a1) →
  for_loop body h client a (pre ++ rest) = for_loop body h1 c1 a1 rest.
Proof.
  induction pre as [|t pre IH]; intros h client a h1 c1 a1 Hpre; simpl in *.
  - by injection Hpre as -> -> ->.
  - destruct (body h client a t) as [h' c' a'|]; [by apply IH | done].
Qed.

Lemma for_loop_stop pre t post h client a h1 c1 a1 o h2 c2 slept :
  passes body h client a pre = Some (h1, c1, a1) →
  body h1 c1 a1 t = Stop o h2 c2 slept →
  for_loop body h client a (pre ++ t :: post) = (o, h2, c2, slept).
Proof.
  intros Hpre Hstop. rewrite (for_loop_app _ _ _ _ _ _ _ _ Hpre).
  simpl. by rewrite Hstop.
Qed.

Lemma passes_app pre mid : ∀ h client a h1 c1 a1,
  passes body h client a pre = Some (h1, c1, a1) →
  passes body h client a (pre ++ mid) = passes body h1 c1 a1 mid.
Proof.
  induction pre as [|t pre IH]; intros h client a h1 c1 a1 Hpre; simpl in *.
  - by injection Hpre as -> -> ->.
  - destruct (body h client a t) as [h' c' a'|]; [by apply IH | done].
Qed.

End LoopProperties.


Section AuthorizeProperties.

Import Engine.

Context {H : Type} `{AuthorizationStateHandler H}.

Implicit Types (h : H) (client : Client) (a : option error) (t : turn).

(** A pass that goes round again did not observe ready or closed,
    and its state query did not fail. *)
Lemma select_Continue h client a t h' client' a' :
  Authorization.select h client a t = Continue h' client' a' →
  t ≠ Tick (inl Closed) ∧ t ≠ Tick (inl Ready) ∧ ∀ e, t ≠ Tick (inr e).
Proof.
  destruct t as [[state|e]|]; simpl; [| done | done].
  destruct (Handle h _ state) as [h1 c1 err| |]; [|done|done].
  destruct err; simpl; repeat case_decide; subst; try done;
    intros _; repeat split; congruence.
Qed.

Lemma passes_nonterminal pre : ∀ h client a h' client' a',
  passes Authorization.select h client a pre = Some (h', client', a') →
  (Tick (inl Closed) ∉ pre) ∧ (Tick (inl Ready) ∉ pre).
Proof.
  induction pre as [|t pre IH]; intros h client a h' client' a' Hpre.
  - split; apply not_elem_of_nil.
  - simpl in Hpre.
    destruct (Authorization.select h client a t) as [h1 c1 a1|] eqn:Hsel; [|done].
    destruct (select_Continue _ _ _ _ _ _ _ Hsel) as (Hc & Hr & _).
    destruct (IH _ _ _ _ _ _ Hpre) as [IHc IHr].
    split; rewrite not_elem_of_cons; split; congruence.
Qed.

(** The ways a pass can make [Authorize] return. *)
Lemma select_Returns h client a t r h' client' slept :
  Authorization.select h client a t = Stop (Returns r) h' client' slept →
  (∃ e, t = Tick (inr e) ∧ r = Some (CallError e) ∧ slept = [])
  ∨ (t = Tick (inl Closed) ∧ slept = [])
  ∨ (t = Tick (inl Ready) ∧ r = None ∧ slept = [1 * Second])
  ∨ (t = Done ∧ Context h = Cancellable ∧ r = None ∧ slept = []).
Proof.
  destruct t as [[state|e]|]; simpl.
  - destruct (Handle h _ state) as [h1 c1 err| |]; [|done|done].
    destruct err; simpl; repeat case_decide; subst; try done;
      intros [= <- <- <- <-]; eauto 10.
  - intros [= <- <- <- <-]. left. eauto.
  - destruct (Context h) eqn:Hctx; [done|]. intros [= <- <- <- <-]. eauto 10.
Qed.

Lemma Authorize_stop pre t post h client h1 c1 a1 o h2 c2 slept :
  passes Authorization.select h client None pre = Some (h1, c1, a1) →
  Authorization.select h1 c1 a1 t = Stop o h2 c2 slept →
  Authorization.Authorize client h (pre ++ t :: post) = deferred_Close (o, h2, c2, slept).
Proof.
  intros Hpre Hstop. unfold Authorization.Authorize.
  by rewrite (for_loop_stop _ _ _ _ _ _ _ _ _ _ _ _ _ _ Hpre Hstop).
Qed.

Lemma Authorize_closes_once client h schedule :
  (∀ r, result (Authorization.Authorize client h schedule) = Returns r →
        closes (Authorization.Authorize client h schedule) = 1%nat
        ∧ ∃ h', Close h' = Some (handler_after (Authorization.Authorize client h schedule)))
  ∧ (closes (Authorization.Authorize client h schedule) ≤ 1)%nat.
Proof.
  unfold Authorization.Authorize, deferred_Close.
  destruct (for_loop _ _ _ _ _) as [[[o h1] c1] slept].
  destruct o; simpl; try (split; [done | lia]);
    destruct (Close h1) as [h2|] eqn:Hclose; simpl; (split; [|lia]);
    intros r' Hr; try done; split; eauto.
Qed.

Lemma Authorize_returns pre t post h client h1 c1 a1 r h2 c2 slept h3 :
  passes Authorization.select h client None pre = Some (h1, c1, a1) →
  Authorization.select h1 c1 a1 t = Stop (Returns r) h2 c2 slept →
  Close h2 = Some h3 →
  Authorization.Authorize client h (pre ++ t :: post)
  = {| result := Returns r; client_after := c2; handler_after := h3;
       sleeps := slept; closes := 1 |}.
Proof.
  intros Hpre Hstop Hclose. rewrite (Authorize_stop _ _ _ _ _ _ _ _ _ _ _ _ Hpre Hstop).
  simpl. by rewrite Hclose.
Qed.

(** C1, on client/authorization.go.  When the [select] finds the
    context of the handler done, [Authorize] returns nil: no error
    is reported and the client is left as it was, without a call of
    [client.Close]. *)
Theorem Authorize_cancelled_returns_nil h client pre post h1 c1 a1 h2 :
  passes Authorization.select h client None pre = Some (h1, c1, a1) →
  Context h1 = Cancellable →
  Close h1 = Some h2 →
  Authorization.Authorize client h (pre ++ Done :: post)
  = {| result := Returns None; client_after := c1; handler_after := h2;
       sleeps := []; closes := 1 |}.
Proof.
  intros Hpre Hctx Hclose. eapply Authorize_returns; [exact Hpre | | exact Hclose].
  simpl. by rewrite Hctx.
Qed.

(** The other revision does what C1 says: it calls [client.Close]
    and returns an error of its own. *)
Lemma Authorize_cancelled_other h client pre post h1 c1 a1 h2 :
  passes AuthorizationOther.select h client None pre = Some (h1, c1, a1) →
  Context h1 = Cancellable →
  Close h1 = Some h2 →
  AuthorizationOther.Authorize client h (pre ++ Done :: post)
  = {| result := Returns (Some AuthorizationTimeoutFinished);
       client_after := logged c1 Api.Close; handler_after := h2;
       sleeps := []; closes := 1 |}
  ∧ AuthorizationTimeoutFinished ≠ CallError ResponseCatchingTimeout
  ∧ AuthorizationTimeoutFinished ≠ ErrNotSupportedAuthorizationState.
Proof.
  intros Hpre Hctx Hclose. split; [|done].
  unfold AuthorizationOther.Authorize.
  rewrite (for_loop_stop _ pre Done post _ _ _ _ _ _
             (Returns (Some AuthorizationTimeoutFinished)) h1 (logged c1 Api.Close) []
             Hpre).
  - simpl. by rewrite Hclose.
  - simpl. by rewrite Hctx.
Qed.

(** C5.  When the state query answers ready and [Handle] returns,
    whatever it returns, [Authorize] sleeps once, for one second,
    and returns nil; closed has not been observed before and what
    the schedule holds after that turn plays no part. *)
Theorem Authorize_ready_succeeds h client pre post h1 c1 a1 h2 c2 err h3 :
  passes Authorization.select h client None pre = Some (h1, c1, a1) →
  Handle h1 (logged c1 Api.GetAuthorizationState) Ready = Handled h2 c2 err →
  Close h2 = Some h3 →
  Authorization.Authorize client h (pre ++ Tick (inl Ready) :: post)
  = {| result := Returns None;
       client_after := match err with Some _ => logged c2 Api.Close | None => c2 end;
       handler_after := h3; sleeps := [1 * Second]; closes := 1 |}
  ∧ (Tick (inl Closed) ∉ pre).
Proof.
  intros Hpre Hhandle Hclose. split.
  - eapply Authorize_returns; [exact Hpre | | exact Hclose].
    simpl. rewrite Hhandle. by destruct err.
  - by destruct (passes_nonterminal _ _ _ _ _ _ _ Hpre).
Qed.

(** A pass replaces a stored error only by the error of a failure
    of [Handle]. *)
Lemma select_stored hx cx stored t hy cy ay :
  Authorization.select hx cx (Some stored) t = Continue hy cy ay →
  ay = Some stored
  ∨ ∃ state hz cz later,
      t = Tick (inl state)
      ∧ Handle hx (logged cx Api.GetAuthorizationState) state = Handled hz cz (Some later)
      ∧ ay = Some later.
Proof.
  destruct t as [[state|e']|]; simpl; [| done |].
  - destruct (Handle hx _ state) as [hz cz [later|]| |] eqn:Hh; simpl;
      repeat case_decide; try done; intros [= <- <- <-]; eauto 10.
  - destruct (Context hx); [|done]. intros [= <- <- <-]. by left.
Qed.

Lemma passes_stored mid : ∀ h client e h1 c1 a1,
  passes Authorization.select h client (Some e) mid = Some (h1, c1, a1) →
  ∃ stored, a1 = Some stored.
Proof.
  induction mid as [|t mid IH]; intros h client e h1 c1 a1 Hmid; simpl in Hmid.
  - injection Hmid as <- <- <-. eauto.
  - destruct (Authorization.select h client (Some e) t) as [hy cy ay|] eqn:Hy; [|done].
    destruct (select_stored _ _ _ _ _ _ _ Hy) as [-> | (state & hz & cz & later & _ & _ & ->)];
      eauto.
Qed.

(** C4, as the code has it.  [Handle] fails with [e] in a pass that
    observed a state other than ready and closed: [e] is stored,
    [client.Close] is called and the loop goes round again.  From
    then on a pass replaces the stored error only by the error of a
    later failure of [Handle].  When closed is observed and [Handle]
    returns, [Authorize] returns the error [Handle] gave for closed
    or else the stored one: in no case nil. *)
Theorem Authorize_returns_stored_error
    h0 client0 pre h client a s e h' client' mid h1 c1 a1 h2 c2 err h3 post :
  passes Authorization.select h0 client0 None pre = Some (h, client, a) →
  Handle h (logged client Api.GetAuthorizationState) s = Handled h' client' (Some e) →
  s ≠ Ready → s ≠ Closed →
  passes Authorization.select h' (logged client' Api.Close) (Some e) mid = Some (h1, c1, a1) →
  Handle h1 (logged c1 Api.GetAuthorizationState) Closed = Handled h2 c2 err →
  Close h2 = Some h3 →
  Authorization.select h client a (Tick (inl s)) = Continue h' (logged client' Api.Close) (Some e)
  ∧ (∃ stored, a1 = Some stored
     ∧ Authorization.Authorize client0 h0 (pre ++ Tick (inl s) :: mid ++ Tick (inl Closed) :: post)
       = {| result := Returns (Some (default stored err));
            client_after := match err with Some _ => logged c2 Api.Close | None => c2 end;
            handler_after := h3; sleeps := []; closes := 1 |})
  ∧ (∀ hx cx stored t hy cy ay,
       Authorization.select hx cx (Some stored) t = Continue hy cy ay →
       ay = Some stored
       ∨ ∃ state hz cz later,
           t = Tick (inl state)
           ∧ Handle hx (logged cx Api.GetAuthorizationState) state = Handled hz cz (Some later)
           ∧ ay = Some later).
Proof.
  intros Hpre Hfail Hr Hc Hmid Hclosed Hclose.
  assert (Authorization.select h client a (Tick (inl s))
          = Continue h' (logged client' Api.Close) (Some e)) as Hsel.
  { simpl. rewrite Hfail. simpl. by repeat case_decide. }
  destruct (passes_stored _ _ _ _ _ _ _ Hmid) as [stored ->].
  split; [exact Hsel|]. split; [|apply select_stored].
  exists stored. split; [done|].
  assert (passes Authorization.select h0 client0 None (pre ++ Tick (inl s) :: mid)
          = Some (h1, c1, Some stored)) as Hall.
  { rewrite (passes_app _ _ _ _ _ _ _ _ _ Hpre). cbn [passes]. by rewrite Hsel. }
  replace (pre ++ Tick (inl s) :: mid ++ Tick (inl Closed) :: post)
    with ((pre ++ Tick (inl s) :: mid) ++ Tick (inl Closed) :: post)
    by (by rewrite <- app_assoc).
  eapply Authorize_returns; [exact Hall | | exact Hclose].
  simpl. rewrite Hclosed. by destruct err.
Qed.

End AuthorizeProperties.

(** ** The interactive handler *)

Section HandleProperties.

Import Engine.






End HandleProperties.



(** ** The handler is closed when [Authorize] returns *)

Section ClientAuthorizerClose.

Import Engine.
Import Authorization.

Implicit Types (h : clientAuthorizer).

Lemma close_closed {A} (c c' : Chan.t A) : Chan.close c = Some c' → Chan.closed c' = true.
Proof. unfold Chan.close. destruct (Chan.closed c); [done|]. by intros [= <-]. Qed.

Lemma close_open {A} (c : Chan.t A) : Chan.closed c = false → is_Some (Chan.close c).
Proof. unfold Chan.close. intros ->. eauto. Qed.

Lemma clientAuthorizer_Close_closes h h' :
  clientAuthorizer_Close h = Some h' → all_closed h'.
Proof.
  unfold clientAuthorizer_Close. intros Hclose.
  destruct (Chan.close (TdlibParametersChan h)) as [p|] eqn:Hp; [|done].
  destruct (Chan.close (PhoneNumber h)) as [n|] eqn:Hn; [|done].
  destruct (Chan.close (Code h)) as [c|] eqn:Hc; [|done].
  destruct (Chan.close (State h)) as [s|] eqn:Hs; [|done].
  destruct (Chan.close (Password h)) as [w|] eqn:Hw; [|done].
  simpl in Hclose. injection Hclose as <-.
  repeat split; simpl; by eapply close_closed.
Qed.

Lemma clientAuthorizer_Close_open h : all_open h → is_Some (clientAuthorizer_Close h).
Proof.
  intros (Hp & Hn & Hc & Hs & Hw). unfold clientAuthorizer_Close.
  destruct (close_open _ Hp) as [? ->]. destruct (close_open _ Hn) as [? ->].
  destruct (close_open _ Hc) as [? ->]. destruct (close_open _ Hs) as [? ->].
  destruct (close_open _ Hw) as [? ->]. simpl. eauto.
Qed.

Lemma send_keeps_open {A} (c c' : Chan.t A) x :
  Chan.send c x = Chan.Sent c' → Chan.closed c' = false.
Proof.
  unfold Chan.send. destruct (Chan.closed c); [done|].
  destruct (decide _); [|done]. by intros [= <-].
Qed.

Lemma recv_keeps_open {A} (c c' : Chan.t A) x :
  Chan.recv c = Chan.Received x c' → Chan.closed c' = Chan.closed c.
Proof. unfold Chan.recv. destruct (Chan.buf c); [by destruct (Chan.closed c)|]. by intros [= _ <-]. Qed.

Lemma recv_string_keeps_open (c c' : Chan.t string) x :
  recv_string c = Some (x, c') → Chan.closed c' = Chan.closed c.
Proof.
  unfold recv_string. destruct (Chan.recv c) as [y c''| |] eqn:Hrecv; [| |done].
  - intros [= _ <-]. by eapply recv_keeps_open.
  - by intros [= _ <-].
Qed.

Lemma Handle_keeps_open h client state :
  all_open h → all_open (handler_of (clientAuthorizer_Handle h client state)).
Proof.
  intros (Hp & Hn & Hc & Hs & Hw). unfold clientAuthorizer_Handle.
  destruct (Chan.send (State h) state) as [st| |] eqn:Hsend; [|by repeat split..].
  pose proof (send_keeps_open _ _ _ Hsend) as Hst.
  destruct state; simpl;
    repeat match goal with
      | |- context [Chan.recv ?c] =>
          let E := fresh "Hrecv" in
          destruct (Chan.recv c) as [[?|] ?| |] eqn:E;
          [apply recv_keeps_open in E; simpl in E ..| |]; simpl
      | |- context [recv_string ?c] =>
          let E := fresh "Hrecv" in
          destruct (recv_string c) as [[? ?]|] eqn:E;
          [apply recv_string_keeps_open in E; simpl in E|]; simpl
      end;
    repeat split; simpl; congruence.
Qed.

Lemma select_keeps_open h client a t :
  all_open h →
  match select h client a t with
  | Continue h' _ _ | Stop _ h' _ _ => all_open h'
  end.
Proof.
  intros Hopen. destruct t as [[state|e]|]; simpl; [| done | done].
  pose proof (Handle_keeps_open h (logged client Api.GetAuthorizationState) state Hopen)
    as Hkeep.
  destruct (clientAuthorizer_Handle h _ state) as [h' c' err| |]; simpl in *; [|done|done].
  destruct err; simpl; by repeat case_decide.
Qed.

Lemma for_loop_keeps_open schedule : ∀ h client a,
  all_open h → all_open (for_loop select h client a schedule).1.1.2.
Proof.
  induction schedule as [|t schedule IH]; intros h client a Hopen; simpl; [done|].
  pose proof (select_keeps_open h client a t Hopen) as Hkeep.
  destruct (select h client a t) as [h' c' a'|o h' c' slept]; [by apply IH | done].
Qed.

Lemma Authorize_clientAuthorizer client h schedule :
  (∀ r, result (Authorize client h schedule) = Returns r →
        all_closed (handler_after (Authorize client h schedule)))
  ∧ (all_open h →
     result (Authorize client h schedule) = (for_loop select h client None schedule).1.1.1).
Proof.
  split.
  - intros r Hr.
    destruct (Authorize_closes_once client h schedule) as [Honce _].
    destruct (Honce r Hr) as (_ & h' & Hclose).
    by apply (clientAuthorizer_Close_closes h').
  - intros Hopen. pose proof (for_loop_keeps_open schedule h client None Hopen) as Hkeep.
    unfold Authorize, deferred_Close.
    destruct (for_loop select h client None schedule) as [[[o h1] c1] slept]. simpl in *.
    destruct (clientAuthorizer_Close_open h1 Hkeep) as [h2 Hclose].
    change (Close h1) with (clientAuthorizer_Close h1). rewrite Hclose.
    by destruct o.
Qed.

End ClientAuthorizerClose.

(** C10.  [Authorize] invokes the [Close] of the handler at most once,
    and exactly once in every run that returns; a run returns in one
    of four ways (the state query failed; closed was observed; ready
    was observed; the context was done) and in each of them [Close]
    has run when it does.  For the interactive handler this leaves the
    five channels closed, and with channels that were open at the
    start the deferred [Close] never turns a return into a panic. *)
Theorem Authorize_closes_handler :
  (∀ (H : Type) (inst : Engine.AuthorizationStateHandler H)
     (client : Engine.Client) (h : H) (schedule : list Engine.turn),
     (Engine.closes (Authorization.Authorize client h schedule) ≤ 1)%nat
     ∧ (∀ r, Engine.result (Authorization.Authorize client h schedule) = Engine.Returns r →
             Engine.closes (Authorization.Authorize client h schedule) = 1%nat
             ∧ ∃ h', Engine.Close h'
                     = Some (Engine.handler_after (Authorization.Authorize client h schedule)))
     ∧ (∀ pre t post h1 c1 a1 r h2 c2 slept h3,
          schedule = pre ++ t :: post →
          Engine.passes Authorization.select h client None pre = Some (h1, c1, a1) →
          Authorization.select h1 c1 a1 t = Engine.Stop (Engine.Returns r) h2 c2 slept →
          Engine.Close h2 = Some h3 →
          Authorization.Authorize client h schedule
          = {| Engine.result := Engine.Returns r; Engine.client_after := c2;
               Engine.handler_after := h3; Engine.sleeps := slept; Engine.closes := 1 |})
     ∧ (∀ hx cx ax t r hy cy slept,
          Authorization.select hx cx ax t = Engine.Stop (Engine.Returns r) hy cy slept →
          (∃ e, t = Engine.Tick (inr e) ∧ r = Some (CallError e) ∧ slept = [])
          ∨ (t = Engine.Tick (inl Engine.Closed) ∧ slept = [])
          ∨ (t = Engine.Tick (inl Engine.Ready) ∧ r = None ∧ slept = [1 * Second])
          ∨ (t = Engine.Done ∧ Engine.Context hx = Engine.Cancellable ∧ r = None ∧ slept = [])))
  ∧ (∀ (client : Engine.Client) (h : Authorization.clientAuthorizer) schedule,
       (∀ r, Engine.result (Authorization.Authorize client h schedule) = Engine.Returns r →
             Authorization.all_closed (Engine.handler_after (Authorization.Authorize client h schedule)))
       ∧ (Authorization.all_open h →
          Engine.result (Authorization.Authorize client h schedule)
          = (Engine.for_loop Authorization.select h client None schedule).1.1.1)).
Proof.
  split.
  - intros H inst client h schedule.
    destruct (Authorize_closes_once client h schedule) as [Honce Hmost].
    split; [exact Hmost|]. split; [exact Honce|]. split.
    + intros pre t post h1 c1 a1 r h2 c2 slept h3 -> Hpre Hstop Hclose.
      by eapply Authorize_returns.
    + intros hx cx ax t r hy cy slept. apply select_Returns.
  - intros client h schedule. apply Authorize_clientAuthorizer.
Qed.

(** ** Concrete runs of [Authorize] *)

Module AuthorizeExamples.
Import Engine.
Import AuthorizeFixtures.

(** The sequence of the specification: three corrective requests,
    one settling sleep, success, the channels closed. *)
Example login_run :
  result (Authorization.Authorize Scripted.idle_engine operator login) = Returns None
  ∧ calls (client_after (Authorization.Authorize Scripted.idle_engine operator login))
    = [Api.GetAuthorizationState; Api.SetTdlibParameters parameters;
       Api.GetAuthorizationState;
       Api.SetAuthenticationPhoneNumber "+15550100"
         {| AllowFlashCall := false; IsCurrentPhoneNumber := false;
            AllowSmsRetrieverApi := false |};
       Api.GetAuthorizationState; Api.CheckAuthenticationCode "12345";
       Api.GetAuthorizationState]
  ∧ sleeps (Authorization.Authorize Scripted.idle_engine operator login) = [1 * Second].
Proof. repeat split. Qed.

(** The operator never supplies a code: [Handle] stays blocked on
    the channel and no later turn of the [select] is reached, the
    cancellation of the context included; the client is not closed. *)
Example operator_silent :
  result (AuthorizationOther.Authorize Scripted.idle_engine silent_operator
            [Tick (inl WaitCode); Done]) = Parks
  ∧ calls (client_after (AuthorizationOther.Authorize Scripted.idle_engine silent_operator
                           [Tick (inl WaitCode); Done]))
    = [Api.GetAuthorizationState].
Proof. split; reflexivity. Qed.

Lemma Authorize_ready_succeeds_witness :
  Authorization.Authorize Scripted.idle_engine operator login
  = {| result := Returns None;
       client_after :=
         {| respond := λ _ _, None;
            calls := [Api.GetAuthorizationState; Api.SetTdlibParameters parameters;
                      Api.GetAuthorizationState;
                      Api.SetAuthenticationPhoneNumber "+15550100"
                        {| AllowFlashCall := false; IsCurrentPhoneNumber := false;
                           AllowSmsRetrieverApi := false |};
                      Api.GetAuthorizationState; Api.CheckAuthenticationCode "12345";
                      Api.GetAuthorizationState] |};
       handler_after :=
         {| Authorization.TdlibParametersChan := Chan.Mk [] 1 true;
            Authorization.PhoneNumber := Chan.Mk [] 1 true;
            Authorization.Code := Chan.Mk [] 1 true;
            Authorization.State :=
              Chan.Mk [WaitTdlibParameters; WaitPhoneNumber; WaitCode; Ready] 10 true;
            Authorization.Password := Chan.Mk [] 1 true |};
       sleeps := [1 * Second]; closes := 1 |}.
Proof.
  edestruct (Authorize_ready_succeeds (H := Authorization.clientAuthorizer) operator
               Scripted.idle_engine
               [Tick (inl WaitTdlibParameters); Tick (inl WaitPhoneNumber); Tick (inl WaitCode)]
               []) as [Hrun _];
    [reflexivity | reflexivity | reflexivity | exact Hrun].
Defined.

Lemma Authorize_cancelled_returns_nil_witness :
  Authorization.Authorize Scripted.idle_engine bystander [Tick (inl WaitCode); Done]
  = {| result := Returns None;
       client_after := {| respond := λ _ _, None; calls := [Api.GetAuthorizationState] |};
       handler_after := bystander; sleeps := []; closes := 1 |}.
Proof.
  eapply (Authorize_cancelled_returns_nil (H := Scripted.t) bystander Scripted.idle_engine
            [Tick (inl WaitCode)] []); reflexivity.
Defined.

(** The same cancellation in the other revision. *)
Example cancelled_other :
  AuthorizationOther.Authorize Scripted.idle_engine bystander [Tick (inl WaitCode); Done]
  = {| result := Returns (Some AuthorizationTimeoutFinished);
       client_after :=
         {| respond := λ _ _, None; calls := [Api.GetAuthorizationState; Api.Close] |};
       handler_after := bystander; sleeps := []; closes := 1 |}.
Proof. reflexivity. Qed.

Lemma Authorize_returns_stored_error_witness :
  result (Authorization.Authorize Scripted.idle_engine operator
            [Tick (inl WaitRegistration); Tick (inl Closing); Tick (inl Closed)])
  = Returns (Some ErrNotSupportedAuthorizationState).
Proof.
  edestruct (Authorize_returns_stored_error (H := Authorization.clientAuthorizer))
    with (h0 := operator) (client0 := Scripted.idle_engine) (pre := @nil turn)
         (s := WaitRegistration) (mid := [Tick (inl Closing)]) (post := @nil turn)
    as (_ & (stored & Hstored & Hrun) & _);
    [reflexivity | reflexivity | done | done | reflexivity | reflexivity | reflexivity |].
  injection Hstored as <-. simpl in Hrun. by rewrite Hrun.
Defined.

(** C4 as the specification words it fails: a failure of [Handle]
    in the pass that observes ready does not keep the loop running.
    [Authorize] calls [client.Close], sleeps and returns nil, and the
    closed state that follows is never polled. *)
Lemma failure_at_ready_discarded :
  ¬ (∀ (h : Scripted.t) client a state e h' client',
       Handle h (logged client Api.GetAuthorizationState) state = Handled h' client' (Some e) →
       state ≠ Closed →
       ∃ hn cn, Authorization.select h client a (Tick (inl state)) = Continue hn cn (Some e))
  ∧ Handle failing (logged Scripted.idle_engine Api.GetAuthorizationState) Ready
    = Handled failing (logged Scripted.idle_engine Api.GetAuthorizationState)
        (Some (CallError (ResponseError 500 "storage unavailable")))
  ∧ Authorization.Authorize Scripted.idle_engine failing [Tick (inl Ready); Tick (inl Closed)]
    = {| result := Returns None;
         client_after :=
           {| respond := λ _ _, None; calls := [Api.GetAuthorizationState; Api.Close] |};
         handler_after := failing; sleeps := [1 * Second]; closes := 1 |}.
Proof.
  split; [|split; reflexivity].
  intros Hclaim.
  destruct (Hclaim failing Scripted.idle_engine None Ready
              (CallError (ResponseError 500 "storage unavailable")) failing
              (logged Scripted.idle_engine Api.GetAuthorizationState) eq_refl)
    as (hn & cn & Hsel); [done|].
  discriminate Hsel.
Qed.

Lemma Authorize_closes_handler_witness :
  Authorization.all_closed (handler_after
                (Authorization.Authorize Scripted.idle_engine operator
                   [Tick (inl WaitTdlibParameters); Tick (inr ResponseCatchingTimeout)])).
Proof.
  destruct Authorize_closes_handler as [_ Hinteractive].
  destruct (Hinteractive Scripted.idle_engine operator
              [Tick (inl WaitTdlibParameters); Tick (inr ResponseCatchingTimeout)])
    as [Hclosed _].
  by apply (Hclosed (Some (CallError ResponseCatchingTimeout))).
Defined.

End AuthorizeExamples.

(** ** More inputs for concrete runs *)

Module FurtherFixtures.
Import Dispatch.
Import DispatchFixtures.

(** A client with one listener and nothing pending. *)
Definition subscribed : Client (TdType := string) := (GetListener (createClient tags [])).1.

Definition getMe : Request := {| ReqType := "getMe"; ReqData := "{}"; ReqExtra := "" |}.

Definition reply_b2 : Response := {| Data := "{user}"; Extra := "b2" |}.

(** Two calls pending, under a1 and b2, and one listener. *)
Definition two_pending : Client (TdType := string) :=
  set_catchers subscribed {[ "a1" := Chan.make 1; "b2" := Chan.make 1 ]}.

(** A listener that has not read any of the 1000 updates queued for
    it, behind a listener that keeps up. *)
Definition lagging : Listener (TdType := string) :=
  {| isActive := true; Updates := Chan.Mk (replicate 1000 "{updateNewMessage}") 1000 false |}.

Definition congested : Client (TdType := string) :=
  set_listeners subscribed (listenerStore subscribed ++ [lagging]).

End FurtherFixtures.

(** ** More vocabulary for [Authorize] *)

Module AuthorizeSpec.
Import Engine.

Definition is_tick (t : turn) : bool :=
  match t with Tick _ => true | Done => false end.

(** The turns in which the timer fired. *)
Definition ticks (schedule : list turn) : list turn :=
  filter (λ t, is_tick t = true) schedule.

(** The states the state queries of the given turns answered, in
    order. *)
Definition states_of (turns : list turn) : list AuthorizationState :=
  omap (λ t, match t with Tick (inl state) => Some state | _ => None end) turns.

End AuthorizeSpec.

(** ** The unattended handler *)

Module Bot.

(** The requests the unattended handler makes: those of [Engine.Api]
    and the check of the bot token. *)
Inductive call :=
| Shared (c : Engine.Api.call)
| CheckAuthenticationBotToken (Token : string).

(** The client as this handler uses it, as [Engine.Client] over the
    wider set of requests. *)
Record Client := {
  respond : list call → call → option call_error;
  calls : list call
}.

Definition logged (client : Client) (c : call) : Client :=
  {| respond := respond client; calls := calls client ++ [c] |}.

Definition request (client : Client) (c : call) : Client * option error :=
  (logged client c, CallError <$> respond client (calls client) c).

Record botAuthorizer := {
  TdlibParametersChan : Chan.t (option Engine.TdlibParameters);   (* the field TdlibParameters *)
  Token : Chan.t string;
  State : Chan.t Engine.AuthorizationState
}.

Inductive handled :=
| Handled (h : botAuthorizer) (client : Client) (err : option error)
| HandleParks (h : botAuthorizer) (client : Client)
| HandlePanics (h : botAuthorizer) (client : Client).

(** [BotAuthorizer(token)]: the token is queued on its channel, which
    is fresh and has room for it. *)
Definition BotAuthorizer (token : string) : botAuthorizer :=
  {| TdlibParametersChan := Chan.make 1;
     Token := match Chan.send (Chan.make 1) token with
              | Chan.Sent ch => ch
              | _ => Chan.make 1
              end;
     State := Chan.make 10 |}.

Definition set_State (h : botAuthorizer) (ch : Chan.t Engine.AuthorizationState) : botAuthorizer :=
  {| TdlibParametersChan := TdlibParametersChan h; Token := Token h; State := ch |}.

Definition set_Token (h : botAuthorizer) (ch : Chan.t string) : botAuthorizer :=
  {| TdlibParametersChan := TdlibParametersChan h; Token := ch; State := State h |}.

Definition set_TdlibParametersChan (h : botAuthorizer)
    (ch : Chan.t (option Engine.TdlibParameters)) : botAuthorizer :=
  {| TdlibParametersChan := ch; Token := Token h; State := State h |}.

(** [botAuthorizer.Handle] of client/authorization.go. *)
Definition botAuthorizer_Handle (stateHandler : botAuthorizer) (client : Client)
    (state : Engine.AuthorizationState) : handled :=
  match Chan.send (State stateHandler) state with
  | Chan.SendBlocks => HandleParks stateHandler client
  | Chan.SendPanics => HandlePanics stateHandler client
  | Chan.Sent st =>
      let h := set_State stateHandler st in
      match state with
      | Engine.WaitTdlibParameters =>
          match Chan.recv (TdlibParametersChan h) with
          | Chan.Received (Some p) ch =>
              let '(client, err) := request client (Shared (Engine.Api.SetTdlibParameters p)) in
              Handled (set_TdlibParametersChan h ch) client err
          | Chan.Received None ch =>     (* p is nil: p.UseTestDc panics *)
              HandlePanics (set_TdlibParametersChan h ch) client
          | Chan.RecvClosed => HandlePanics h client
          | Chan.RecvBlocks => HandleParks h client
          end
      | Engine.WaitPhoneNumber =>
          match Authorization.recv_string (Token h) with
          | Some (token, ch) =>
              let '(client, err) := request client (CheckAuthenticationBotToken token) in
              Handled (set_Token h ch) client err
          | None => HandleParks h client
          end
      | Engine.WaitCode => Handled h client (Some ErrNotSupportedAuthorizationState)
      | Engine.WaitPassword => Handled h client (Some ErrNotSupportedAuthorizationState)
      | Engine.Ready => Handled h client None
      | Engine.LoggingOut => Handled h client (Some ErrNotSupportedAuthorizationState)
      | Engine.Closing => Handled h client (Some ErrNotSupportedAuthorizationState)
      | Engine.Closed => Handled h client (Some ErrNotSupportedAuthorizationState)
      | _ => Handled h client (Some ErrNotSupportedAuthorizationState)
      end
  end.

(** [botAuthorizer.Handle] of the other revision. *)
Definition botAuthorizer_Handle_other (stateHandler : botAuthorizer) (client : Client)
    (state : Engine.AuthorizationState) : handled :=
  match Chan.send (State stateHandler) state with
  | Chan.SendBlocks => HandleParks stateHandler client
  | Chan.SendPanics => HandlePanics stateHandler client
  | Chan.Sent st =>
      let h := set_State stateHandler st in
      match state with
      | Engine.WaitTdlibParameters =>
          match Chan.recv (TdlibParametersChan h) with
          | Chan.Received p ch =>
              let '(client, err) := request client (Shared (Engine.Api.SetTdlibParametersPtr p)) in
              Handled (set_TdlibParametersChan h ch) client err
          | Chan.RecvClosed =>
              let '(client, err) :=
                request client (Shared (Engine.Api.SetTdlibParametersPtr None)) in
              Handled h client err
          | Chan.RecvBlocks => HandleParks h client
          end
      | Engine.WaitEncryptionKey =>
          let '(client, err) := request client (Shared Engine.Api.CheckDatabaseEncryptionKey) in
          Handled h client err
      | Engine.WaitPhoneNumber =>
          match Authorization.recv_string (Token h) with
          | Some (token, ch) =>
              let '(client, err) := request client (CheckAuthenticationBotToken token) in
              Handled (set_Token h ch) client err
          | None => HandleParks h client
          end
      | Engine.WaitCode => Handled h client (Some ErrNotSupportedAuthorizationState)
      | Engine.WaitPassword => Handled h client (Some ErrNotSupportedAuthorizationState)
      | Engine.Ready => Handled h client None
      | Engine.LoggingOut => Handled h client (Some ErrNotSupportedAuthorizationState)
      | Engine.Closing => Handled h client (Some ErrNotSupportedAuthorizationState)
      | Engine.Closed => Handled h client (Some ErrNotSupportedAuthorizationState)
      | _ => Handled h client (Some ErrNotSupportedAuthorizationState)
      end
  end.

(** [botAuthorizer.Close]: three [close] statements in a row. *)
Definition botAuthorizer_Close (stateHandler : botAuthorizer) : option botAuthorizer :=
  p ← Chan.close (TdlibParametersChan stateHandler);
  t ← Chan.close (Token stateHandler);
  s ← Chan.close (State stateHandler);
  Some {| TdlibParametersChan := p; Token := t; State := s |}.



(** [Handle] refuses exactly the states outside [accepted], with
    [ErrNotSupportedAuthorizationState] and without a request; it makes
    at most one request in a call, none for ready, and none when it
    does not return. *)
Definition answers (Handle : botAuthorizer → Client → Engine.AuthorizationState → handled)
    (accepted : Engine.AuthorizationState → bool) : Prop :=
  ∀ h client state,
    match Handle h client state with
    | Handled _ client' err =>
        (err = Some ErrNotSupportedAuthorizationState ↔ accepted state = false)
        ∧ (∃ requests, calls client' = calls client ++ requests ∧ (length requests ≤ 1)%nat)
        ∧ (accepted state = false → client' = client)
        ∧ (state = Engine.Ready → err = None ∧ client' = client)
    | HandleParks _ client' | HandlePanics _ client' => client' = client
    end.

End Bot.

(** ** The operator's side of the interactive handler *)

Module Interactor.
Import Engine.
Import Authorization.

(** *** Standard input *)

(** Standard input is what is still unread of it, as the characters
    [fmt] decodes from it: Go [rune]s, 32-bit integers. *)
Definition rune := Z.

Definition newline : rune := 10.

(** [isSpace] of package fmt: the table of Unicode white space,
    looked up with the rune cut to 16 bits. *)
Definition isSpace (r : rune) : bool :=
  if 0x10000 <=? r then false
  else
    let rx := r mod 0x10000 in
    ((0x0009 <=? rx) && (rx <=? 0x000d)) || (rx =? 0x0020) || (rx =? 0x0085)
    || (rx =? 0x00a0) || (rx =? 0x1680) || ((0x2000 <=? rx) && (rx <=? 0x200a))
    || ((0x2028 <=? rx) && (rx <=? 0x2029)) || (rx =? 0x202f) || (rx =? 0x205f)
    || (rx =? 0x3000).

(** The conversion [byte(x)]. *)
Definition byte_of (x : Z) : Z := x mod 256.

Definition byte (x : Z) : Ascii.ascii := Ascii.ascii_of_N (Z.to_N (byte_of x)).

(** [utf8.AppendRune], by which the scanner writes a rune of the
    word to its buffer: the UTF-8 encoding, that of U+FFFD for what
    is no Unicode scalar value. *)
Definition AppendRune (r : rune) : list Ascii.ascii :=
  let i := r mod 2 ^ 32 in
  if i <=? 0x7F then [byte r]
  else if i <=? 0x7FF then
    [byte (Z.lor 0xC0 (byte_of (Z.shiftr r 6))); byte (Z.lor 0x80 (Z.land (byte_of r) 0x3F))]
  else if (0x10FFFF <? i) || ((0xD800 <=? i) && (i <=? 0xDFFF)) then
    [byte 0xEF; byte 0xBF; byte 0xBD]
  else if i <=? 0xFFFF then
    [byte (Z.lor 0xE0 (byte_of (Z.shiftr r 12)));
     byte (Z.lor 0x80 (Z.land (byte_of (Z.shiftr r 6)) 0x3F));
     byte (Z.lor 0x80 (Z.land (byte_of r) 0x3F))]
  else
    [byte (Z.lor 0xF0 (byte_of (Z.shiftr r 18)));
     byte (Z.lor 0x80 (Z.land (byte_of (Z.shiftr r 12)) 0x3F));
     byte (Z.lor 0x80 (Z.land (byte_of (Z.shiftr r 6)) 0x3F));
     byte (Z.lor 0x80 (Z.land (byte_of r) 0x3F))].

(** The Go string of a word of runes. *)
Definition string_of_runes (word : list rune) : string :=
  String.string_of_list_ascii (concat (AppendRune <$> word)).

(** [SkipSpace] of the scanner, newlines not counting as space: it
    stops in front of the first character of a word, or has read the
    newline it ran into, or has reached the end of the input. *)
Inductive skipped :=
| AtWord (input : list rune)
| UnexpectedNewline (input : list rune)
| AtEOF.

Fixpoint SkipSpace (input : list rune) : skipped :=
  match input with
  | [] => AtEOF
  | r :: rest =>
      if r =? newline then UnexpectedNewline rest
      else if isSpace r then SkipSpace rest
      else AtWord input
  end.

(** [token]: the characters up to the next white space, which is
    left unread. *)
Fixpoint token (input : list rune) : list rune * list rune :=
  match input with
  | [] => ([], [])
  | r :: rest =>
      if isSpace r then ([], input)
      else let '(word, unread) := token rest in (r :: word, unread)
  end.

(** The check for the end of the line that [Scanln] makes after its
    last operand: spaces are read up to and including the newline;
    a character of another word is read too, and is an error. *)
Fixpoint end_of_line (input : list rune) : list rune :=
  match input with
  | [] => []
  | r :: rest =>
      if r =? newline then rest
      else if isSpace r then end_of_line rest
      else rest
  end.

(** [fmt.Scanln(&x)] for a string [x] declared just before, its
    result ignored: [x] is the first word of the line, and stays
    empty when the line has none or the input is exhausted. *)
Definition Scanln (stdin : list rune) : string * list rune :=
  match SkipSpace stdin with
  | AtWord input =>
      let '(word, unread) := token input in (string_of_runes word, end_of_line unread)
  | UnexpectedNewline unread => ("", unread)
  | AtEOF => ("", [])
  end.

(** How far [CliInteractor] got with what was queued for it. *)
Inductive ended :=
| Returned
| AwaitsState      (* blocked on the receive from State *)
| AwaitsRoom       (* blocked on a send to a full input channel *)
| Crashed.         (* panic: send on a closed input channel *)

Record run := {
  how : ended;
  handler : clientAuthorizer;
  stdin_left : list rune;
  printed : list string
}.

Definition set_State (h : clientAuthorizer) (queue : list AuthorizationState) : clientAuthorizer :=
  {| TdlibParametersChan := TdlibParametersChan h; PhoneNumber := PhoneNumber h;
     Code := Code h;
     State := Chan.Mk queue (Chan.cap (State h)) (Chan.closed (State h));
     Password := Password h |}.

Definition set_PhoneNumber (h : clientAuthorizer) (ch : Chan.t string) : clientAuthorizer :=
  {| TdlibParametersChan := TdlibParametersChan h; PhoneNumber := ch; Code := Code h;
     State := State h; Password := Password h |}.

Definition set_Code (h : clientAuthorizer) (ch : Chan.t string) : clientAuthorizer :=
  {| TdlibParametersChan := TdlibParametersChan h; PhoneNumber := PhoneNumber h; Code := ch;
     State := State h; Password := Password h |}.

Definition set_Password (h : clientAuthorizer) (ch : Chan.t string) : clientAuthorizer :=
  {| TdlibParametersChan := TdlibParametersChan h; PhoneNumber := PhoneNumber h;
     Code := Code h; State := State h; Password := ch |}.

(** [channel <- line], then the next iteration. *)
Definition hand_over (ch : Chan.t string) (line : string)
    (h : clientAuthorizer) (set : clientAuthorizer → Chan.t string → clientAuthorizer)
    (stdin : list rune) (printed : list string)
    (next : clientAuthorizer → list rune → list string → run) : run :=
  match Chan.send ch line with
  | Chan.Sent ch => next (set h ch) stdin printed
  | Chan.SendBlocks =>
      {| how := AwaitsRoom; handler := h; stdin_left := stdin; printed := printed |}
  | Chan.SendPanics =>
      {| how := Crashed; handler := h; stdin_left := stdin; printed := printed |}
  end.

(** The loop of [CliInteractor] of client/authorization.go over the
    states queued on the State channel, [queue] being that channel's
    buffer. *)
Fixpoint serve (queue : list AuthorizationState) (h : clientAuthorizer)
    (stdin : list rune) (printed : list string) : run :=
  match queue with
  | [] =>
      {| how := if Chan.closed (State h) then Returned else AwaitsState;
         handler := set_State h []; stdin_left := stdin; printed := printed |}
  | state :: rest =>
      let h := set_State h rest in
      match state with
      | WaitPhoneNumber =>
          let printed := printed ++ ["Enter phone number: "] in
          let '(phoneNumber, stdin) := Scanln stdin in
          hand_over (PhoneNumber h) phoneNumber h set_PhoneNumber stdin printed (serve rest)
      | WaitEmailAddress | WaitEmailCode | WaitOtherDeviceConfirmation | WaitRegistration =>
          {| how := Returned; handler := h; stdin_left := stdin; printed := printed |}
      | WaitCode =>
          let printed := printed ++ ["Enter code: "] in
          let '(code, stdin) := Scanln stdin in
          hand_over (Code h) code h set_Code stdin printed (serve rest)
      | WaitPassword =>
          let printed := printed ++ ["Enter password: "] in
          let '(password, stdin) := Scanln stdin in
          hand_over (Password h) password h set_Password stdin printed (serve rest)
      | Ready =>
          {| how := Returned; handler := h; stdin_left := stdin; printed := printed |}
      | _ => serve rest h stdin printed
      end
  end.

Definition CliInteractor (clientAuthorizer : clientAuthorizer) (stdin : list rune) : run :=
  serve (Chan.buf (State clientAuthorizer)) clientAuthorizer stdin [].

(** States [CliInteractor] has no case for. *)
Definition passed_over (state : AuthorizationState) : bool :=
  match state with
  | WaitTdlibParameters | WaitEncryptionKey | LoggingOut | Closing | Closed => true
  | _ => false
  end.

(** States at which [CliInteractor] returns. *)
Definition final (state : AuthorizationState) : bool :=
  match state with
  | WaitEmailAddress | WaitEmailCode | WaitOtherDeviceConfirmation | WaitRegistration
  | Ready => true
  | _ => false
  end.

End Interactor.

(** ** Inputs for the concrete runs of [CliInteractor] *)

Module InteractorFixtures.
Import Interactor.

(** The runes of a text in ASCII. *)
Definition keys (text : string) : list rune :=
  (λ c, Z.of_N (Ascii.N_of_ascii c)) <$> String.list_ascii_of_string text.

(** Lines typed by the operator, each ended by the return key. *)
Definition typed (lines : list string) : list rune :=
  concat ((λ line, keys line ++ [newline]) <$> lines).

End InteractorFixtures.

(** * Further properties *)

(** ** The dispatch loop and [Send], continued *)

Section DispatchFurther.

Import Dispatch.
Import DispatchSpec.

Context {TdType : Type} (UnmarshalType : string → option TdType).

Implicit Types (client : Client (TdType := TdType)) (l : Listener (TdType := TdType)).
Implicit Types (ls : list (Listener (TdType := TdType))) (r : Response) (typ : TdType).

Lemma catch_settings client r : same_settings client (catch client r).1.
Proof.
  unfold catch. destruct (decide _); [|done].
  destruct (catchersStore client !! Extra r) as [ch|]; [|done].
  by destruct (Chan.send ch r).
Qed.

Lemma publish_settings client r : same_settings client (publish UnmarshalType client r).1.
Proof.
  unfold publish. destruct (UnmarshalType (Data r)) as [typ|]; [|done].
  destruct (broadcast typ (listenerStore client)) as [[ls needGc] s]. by destruct s.
Qed.

Lemma same_settings_trans client1 client2 client3 :
  same_settings client1 client2 → same_settings client2 client3 → same_settings client1 client3.
Proof. intros (?&?&?&?) (?&?&?&?). repeat split; congruence. Qed.

Lemma receiver_step_settings client r :
  same_settings client (receiver_step UnmarshalType client r).1.
Proof.
  pose proof (catch_settings client r) as Hc. unfold receiver_step.
  destruct (catch client r) as [c s]. simpl in Hc.
  destruct s; [|done|done].
  eapply same_settings_trans; [exact Hc | apply publish_settings].
Qed.

Lemma catch_dom client r :
  dom (catchersStore (catch client r).1) = dom (catchersStore client).
Proof.
  unfold catch. destruct (decide _); [|done].
  destruct (catchersStore client !! Extra r) as [ch|] eqn:Hlook; [|done].
  destruct (Chan.send ch r); [|done|done]. simpl.
  rewrite dom_insert_L. apply elem_of_dom_2 in Hlook.
  apply subseteq_union_1_L. by apply singleton_subseteq_l.
Qed.

Lemma receiver_step_dom client r :
  dom (catchersStore (receiver_step UnmarshalType client r).1) = dom (catchersStore client).
Proof.
  rewrite <- (catch_dom client r). unfold receiver_step.
  destruct (catch client r) as [c s]. simpl.
  destruct s; [by rewrite publish_catchers | done | done].
Qed.

(** X3.  The dispatch loop never adds an entry to the catchers' store
    and never removes one, whatever it is fed and however far it
    gets: [Store] and [Delete] are [Send]'s alone.  Nor does it touch
    the tag generator, the timeout or the record of requests sent. *)
Theorem receiver_keeps_pending_keys rs : ∀ client,
  dom (catchersStore (receiver UnmarshalType client rs).1) = dom (catchersStore client)
  ∧ same_settings client (receiver UnmarshalType client rs).1.
Proof.
  induction rs as [|r rs IH]; intros client; [done|].
  cbn [receiver].
  pose proof (receiver_step_dom client r) as Hdom.
  pose proof (receiver_step_settings client r) as Hset.
  destruct (receiver_step UnmarshalType client r) as [c s]. simpl in *.
  destruct s; [|done|done].
  destruct (IH c) as [IHdom IHset]. split; [congruence|].
  by eapply same_settings_trans.
Qed.

(** X4.  As long as no stored catcher and no active listener's queue
    is closed, the dispatch loop does not panic, whatever it is fed,
    and it leaves the stores in that condition. *)
Theorem receiver_never_panics rs : ∀ client,
  no_closed_target client →
  (receiver UnmarshalType client rs).2 ≠ Panicked
  ∧ no_closed_target (receiver UnmarshalType client rs).1.
Proof.
  induction rs as [|r rs IH]; intros client Hwf; [done|].
  cbn [receiver].
  destruct (receiver_step_no_panic UnmarshalType client r Hwf) as [Hs Hwf'].
  destruct (receiver_step UnmarshalType client r) as [c s]. simpl in *.
  destruct s; [by apply IH | done | done].
Qed.

Lemma Send_unfold client req arrivals :
  Send UnmarshalType client req arrivals =
  match await UnmarshalType (registered client req)
          (extraGenerator client (extraCalls client)) (catchTimeout client) arrivals with
  | (client', Panicked, _) => (client', SendCrashes)
  | (client', _, got) =>
      (set_catchers client'
         (delete (extraGenerator client (extraCalls client)) (catchersStore client')),
       SendReturns match got with
                   | Some response => inl response
                   | None => inr (CallError ResponseCatchingTimeout)
                   end)
  end.
Proof. reflexivity. Qed.

Lemma await_settings tag deadline arrivals : ∀ client,
  same_settings client (await UnmarshalType client tag deadline arrivals).1.1.
Proof.
  induction arrivals as [|[t r] rest IH]; intros client; cbn [await];
    destruct (poll client tag); try done.
  destruct (decide (t < deadline)); [|done].
  pose proof (receiver_step_settings client r) as Hstep.
  destruct (receiver_step UnmarshalType client r) as [c s]. simpl in Hstep.
  destruct s; [|done|done].
  eapply same_settings_trans; [exact Hstep | apply IH].
Qed.

(** X2.  Whatever arrives and however the call ends, [Send] hands
    the transport exactly one request: the caller's, with its tag
    replaced by the one drawn from the generator.  One tag is drawn;
    the generator and the timeout stay as they were. *)
Theorem Send_submits_once client req arrivals :
  sent (Send UnmarshalType client req arrivals).1
  = sent client ++ [{| ReqType := ReqType req; ReqData := ReqData req;
                       ReqExtra := extraGenerator client (extraCalls client) |}]
  ∧ extraCalls (Send UnmarshalType client req arrivals).1 = S (extraCalls client)
  ∧ extraGenerator (Send UnmarshalType client req arrivals).1 = extraGenerator client
  ∧ catchTimeout (Send UnmarshalType client req arrivals).1 = catchTimeout client.
Proof.
  rewrite Send_unfold.
  pose proof (await_settings (extraGenerator client (extraCalls client)) (catchTimeout client)
                arrivals (registered client req)) as (Hg & Hc & Ht & Hs).
  destruct (await _ _ _ _ _) as [[c s] got]. simpl in *.
  destruct s; simpl; rewrite ?Hg, ?Hc, ?Ht, ?Hs; done.
Qed.

Lemma receiver_app client a : ∀ b,
  receiver UnmarshalType client (a ++ b) =
  match receiver UnmarshalType client a with
  | (c, Running) => receiver UnmarshalType c b
  | stuck => stuck
  end.
Proof.
  revert client. induction a as [|r a IH]; intros client b; [done|].
  cbn [app receiver].
  destruct (receiver_step UnmarshalType client r) as [c s].
  destruct s; [apply IH | done | done].
Qed.

Lemma receiver_other_tags tag rs : ∀ client,
  Forall (λ r, Extra r ≠ tag) rs →
  catchersStore (receiver UnmarshalType client rs).1 !! tag = catchersStore client !! tag.
Proof.
  induction rs as [|r rs IH]; intros client Hrs; [done|].
  apply Forall_cons in Hrs as [Hr Hrs]. cbn [receiver].
  pose proof (receiver_step_other_tag UnmarshalType client r tag Hr) as Hstep.
  destruct (receiver_step UnmarshalType client r) as [c s]. simpl in Hstep.
  destruct s; [|done|done]. by rewrite IH.
Qed.

Lemma await_through tag deadline tail pre : ∀ client,
  poll client tag = None →
  Forall (λ p, p.1 < deadline ∧ Extra p.2 ≠ tag) pre →
  (receiver UnmarshalType client pre.*2).2 = Running →
  await UnmarshalType client tag deadline (pre ++ tail)
  = await UnmarshalType (receiver UnmarshalType client pre.*2).1 tag deadline tail.
Proof.
  induction pre as [|[t r] pre IH]; intros client Hpoll Hpre Hrun; [done|].
  apply Forall_cons in Hpre as [[Ht Hr] Hpre]. simpl in Ht, Hr.
  cbn [app await fmap list_fmap snd receiver] in *. rewrite Hpoll.
  destruct (decide (t < deadline)); [|done].
  pose proof (receiver_step_other_tag UnmarshalType client r tag Hr) as Hsame.
  destruct (receiver_step UnmarshalType client r) as [c s]. simpl in *.
  destruct s; [|done|done].
  apply IH; [|done|done]. by rewrite (poll_lookup client c).
Qed.

Lemma receiver_single client r :
  receiver UnmarshalType client [r] = receiver_step UnmarshalType client r.
Proof.
  cbn [receiver]. destruct (receiver_step UnmarshalType client r) as [c s]. by destruct s.
Qed.

Lemma await_reply tag deadline client t r post c2 s2 got :
  poll client tag = None → t < deadline →
  receiver_step UnmarshalType client r = (c2, s2) → s2 ≠ Panicked →
  poll c2 tag = Some got →
  await UnmarshalType client tag deadline ((t, r) :: post) = (c2, s2, Some got).
Proof.
  intros Hpoll Ht Hstep Hs Hgot. cbn [await]. rewrite Hpoll.
  destruct (decide (t < deadline)); [|done]. rewrite Hstep.
  destruct s2; [|by rewrite Hgot|done].
  destruct post as [|[t' r'] post]; cbn [await]; by rewrite Hgot.
Qed.

Lemma registered_targets_open client req :
  no_closed_target client → no_closed_target (registered client req).
Proof.
  intros [Hc Hl]. split; simpl; [|done]. intros k ch. rewrite lookup_insert.
  destruct (decide (_ = k)); [by intros [= <-] | by apply Hc].
Qed.

Lemma receiver_targets_open rs : ∀ client,
  no_closed_target client → no_closed_target (receiver UnmarshalType client rs).1.
Proof.
  induction rs as [|r rs IH]; intros client Hwf; [done|].
  cbn [receiver].
  destruct (receiver_step_no_panic UnmarshalType client r Hwf) as [_ Hwf'].
  destruct (receiver_step UnmarshalType client r) as [c s]. simpl in *.
  destruct s; [by apply IH | done | done].
Qed.

(** X1.  The reply to a call arrives before the deadline, after
    other traffic under other tags that the dispatch loop has got
    through without parking, no stored catcher and no active
    listener's queue being closed: [Send] returns that reply and no
    error, also when the loop, having handed the reply to the
    catcher, parks on a listener that has no room for it.  The
    messages behind the reply are not waited for, and the catchers'
    store has no entry under the tag when [Send] returns. *)
Theorem Send_receives_reply client req pre t r post :
  extraGenerator client (extraCalls client) ≠ "" →
  Extra r = extraGenerator client (extraCalls client) →
  t < catchTimeout client →
  Forall (λ p, p.1 < catchTimeout client
               ∧ Extra p.2 ≠ extraGenerator client (extraCalls client)) pre →
  no_closed_target client →
  (receiver UnmarshalType (registered client req) pre.*2).2 = Running →
  Send UnmarshalType client req (pre ++ (t, r) :: post)
  = (set_catchers (receiver UnmarshalType (registered client req) (pre.*2 ++ [r])).1
       (delete (Extra r)
          (catchersStore (receiver UnmarshalType (registered client req) (pre.*2 ++ [r])).1)),
     SendReturns (inl r))
  ∧ catchersStore (Send UnmarshalType client req (pre ++ (t, r) :: post)).1 !! Extra r = None.
Proof.
  intros Htag Hr Ht Hpre Hwf Hrun.
  pose proof (registered_targets_open client req Hwf) as Hwf1.
  set (tag := extraGenerator client (extraCalls client)) in *.
  set (client1 := registered client req) in *.
  assert (catchersStore client1 !! tag = Some (Chan.make 1)) as Hentry
    by apply lookup_insert_eq.
  assert (poll client1 tag = None) as Hpoll by (unfold poll; by rewrite Hentry).
  pose proof (receiver_targets_open pre.*2 client1 Hwf1) as Hwfc1.
  rewrite receiver_app.
  destruct (receiver UnmarshalType client1 pre.*2) as [c1 s1] eqn:Hpre1.
  cbn [fst snd] in Hrun, Hwfc1. subst s1.
  rewrite receiver_single.
  assert (catchersStore c1 !! tag = Some (Chan.make 1)) as Hentry1.
  { replace c1 with (receiver UnmarshalType client1 pre.*2).1 by (by rewrite Hpre1).
    rewrite receiver_other_tags; [done|].
    apply Forall_fmap. eapply Forall_impl; [exact Hpre|]. by intros [t' r'] [_ ?]. }
  assert (poll c1 tag = None) as Hpoll1 by (unfold poll; by rewrite Hentry1).
  assert (catchersStore (receiver_step UnmarshalType c1 r).1 !! tag
          = Some (Chan.Mk [r] 1 false)) as Hgot.
  { unfold receiver_step, catch. rewrite Hr.
    destruct (decide (tag ≠ "")) as [_|]; [|done].
    rewrite Hentry1, (send_ready (Chan.make 1) r) by (split; [done | simpl; lia]).
    rewrite publish_catchers. simpl. apply lookup_insert_eq. }
  destruct (receiver_step_no_panic UnmarshalType c1 r Hwfc1) as [Hs2 _].
  destruct (receiver_step UnmarshalType c1 r) as [c2 s2] eqn:Hstep.
  cbn [fst snd] in Hgot, Hs2 |- *.
  assert (poll c2 tag = Some r) as Hpoll2 by (unfold poll; by rewrite Hgot).
  assert (await UnmarshalType client1 tag (catchTimeout client) (pre ++ (t, r) :: post)
          = (c2, s2, Some r)) as Hawait.
  { rewrite (await_through tag (catchTimeout client) ((t, r) :: post) pre client1);
      [| done | done | by rewrite Hpre1].
    rewrite Hpre1. by apply await_reply. }
  rewrite Send_unfold. fold tag. fold client1. rewrite Hawait, Hr.
  destruct s2; [|  |done]; (split; [done | simpl; apply lookup_delete_eq]).
Qed.

(** *** Batches of messages *)

Lemma set_listeners_id client : set_listeners client (listenerStore client) = client.
Proof. by destruct client. Qed.

Lemma queued_nil k ls : roomy k ls → queued [] <$> ls = ls.
Proof.
  induction 1 as [|l ls (Hact & Hopen & _) _ IH]; [done|].
  cbn [fmap list_fmap]. fold (fmap (M := list) (queued (TdType := TdType) [])).
  rewrite IH. f_equal. unfold queued, set_Updates. rewrite app_nil_r.
  destruct l as [act [buf cap closed]]. simpl in *. by subst.
Qed.

Lemma queued_app a b l : queued b (queued a l) = queued (a ++ b) l.
Proof. unfold queued, set_Updates. simpl. by rewrite app_assoc. Qed.

Lemma broadcast_roomy typ k ls :
  roomy (S k) ls →
  broadcast typ ls = (queued [typ] <$> ls, false, Running) ∧ roomy k (queued [typ] <$> ls).
Proof.
  induction 1 as [|l ls (Hact & Hopen & Hroom) _ [IHb IHr]]; [by split; [|constructor]|].
  cbn [broadcast fmap list_fmap]. rewrite Hact.
  rewrite (send_ready (Updates l) typ) by (split; [done | lia]).
  fold (fmap (M := list) (queued (TdType := TdType) [typ])).
  rewrite IHb. split; [done|].
  constructor; [|done]. unfold queued, set_Updates. simpl.
  rewrite length_app. simpl. repeat split; [done | lia].
Qed.

Lemma publish_roomy client r k :
  roomy (length (decoded UnmarshalType [r]) + k) (listenerStore client) →
  publish UnmarshalType client r
  = (set_listeners client (queued (decoded UnmarshalType [r]) <$> listenerStore client), Running)
  ∧ roomy k (queued (decoded UnmarshalType [r]) <$> listenerStore client).
Proof.
  unfold publish, decoded. cbn [omap list_omap].
  destruct (UnmarshalType (Data r)) as [typ|]; cbn [length Nat.add]; intros Hroom.
  - destruct (broadcast_roomy typ k _ Hroom) as [-> Hk]. done.
  - rewrite (queued_nil k _ Hroom), set_listeners_id. done.
Qed.

Lemma decoded_cons r rs :
  decoded UnmarshalType (r :: rs) = decoded UnmarshalType [r] ++ decoded UnmarshalType rs.
Proof. unfold decoded. cbn [omap list_omap]. by destruct (UnmarshalType (Data r)). Qed.

Lemma queued_queued a b ls : queued b <$> (queued a <$> ls) = queued (a ++ b) <$> ls.
Proof.
  rewrite <- list_fmap_compose. apply list_fmap_ext. intros i l _. apply queued_app.
Qed.

(** X5.  A batch of messages that no pending call is waiting for,
    every listener active with room for what decodes: the loop runs
    through the batch and each listener's queue grows by the decoded
    payloads, all of them, in arrival order; nothing else changes. *)
Theorem updates_in_arrival_order rs : ∀ client,
  Forall (unmatched client) rs →
  roomy (length (decoded UnmarshalType rs)) (listenerStore client) →
  receiver UnmarshalType client rs
  = (set_listeners client (queued (decoded UnmarshalType rs) <$> listenerStore client), Running).
Proof.
  induction rs as [|r rs IH]; intros client Hun Hroom.
  - cbn [receiver decoded omap list_omap]. by rewrite (queued_nil _ _ Hroom), set_listeners_id.
  - apply Forall_cons in Hun as [Hr Hrs]. rewrite decoded_cons, length_app in Hroom.
    destruct (publish_roomy client r _ Hroom) as [Hpub Hroom'].
    cbn [receiver]. unfold receiver_step.
    rewrite (catch_unmatched client r Hr), Hpub, IH; [| done | done].
    cbn [listenerStore set_listeners]. rewrite queued_queued, <- decoded_cons.
    by destruct client.
Qed.

Lemma broadcast_blocks typ pre l post :
  listeners_ready pre → isActive l = true → Chan.closed (Updates l) = false →
  length (Chan.buf (Updates l)) = Chan.cap (Updates l) →
  ∃ needGc, broadcast typ (pre ++ l :: post) = ((deliver typ <$> pre) ++ l :: post, needGc, Blocked).
Proof.
  intros Hpre Hact Hopen Hfull.
  induction Hpre as [|p pre Hp _ [needGc IH]].
  - cbn [app fmap list_fmap broadcast]. rewrite Hact. unfold Chan.send. rewrite Hopen.
    destruct (decide _); [lia | eauto].
  - cbn [app fmap list_fmap broadcast]. unfold deliver at 1.
    destruct (isActive p) eqn:Hpa.
    + rewrite (send_ready _ _ (Hp eq_refl)), IH. eauto.
    + rewrite IH. eauto.
Qed.

(** X7.  One active listener whose queue is full and open parks the
    dispatch loop on the next payload that decodes: the listeners
    registered before it have been served, it and the ones after it
    have not, and none of the messages behind that payload is
    processed, replies to pending calls included. *)
Theorem full_listener_parks_loop client r typ rest pre l post :
  (catch client r).2 = Running →
  UnmarshalType (Data r) = Some typ →
  listenerStore client = pre ++ l :: post →
  listeners_ready pre → isActive l = true → Chan.closed (Updates l) = false →
  length (Chan.buf (Updates l)) = Chan.cap (Updates l) →
  receiver UnmarshalType client (r :: rest)
  = (set_listeners (catch client r).1 ((deliver typ <$> pre) ++ l :: post), Blocked).
Proof.
  intros Hcatch Hdec Hls Hpre Hact Hopen Hfull.
  pose proof (catch_listeners client r) as Hsame.
  cbn [receiver]. unfold receiver_step.
  destruct (catch client r) as [c s]. simpl in *. subst s.
  unfold publish. rewrite Hdec, Hsame, Hls.
  destruct (broadcast_blocks typ pre l post Hpre Hact Hopen Hfull) as [needGc ->]. done.
Qed.

Lemma receiver_step_awaited client r k :
  awaited client r →
  roomy (length (decoded UnmarshalType [r]) + k) (listenerStore client) →
  ∃ catcher client', 
    catchersStore client !! Extra r = Some catcher
    ∧ receiver_step UnmarshalType client r = (client', Running)
    ∧ catchersStore client'
      = <[Extra r := Chan.Mk (Chan.buf catcher ++ [r]) (Chan.cap catcher) false]>
          (catchersStore client)
    ∧ roomy k (listenerStore client').
Proof.
  intros (Htag & catcher & Hlook & Hready) Hroom.
  exists catcher. unfold receiver_step, catch.
  destruct (decide (Extra r ≠ "")) as [_|]; [|done].
  rewrite Hlook, (send_ready _ _ Hready).
  match goal with |- context [publish _ ?c r] => set (client1 := c) end.
  destruct (publish_roomy client1 r k Hroom) as [Hpub Hroom'].
  eexists. split; [done|]. split; [exact Hpub|]. by split.
Qed.

(** X6.  A batch of replies under pairwise different tags, each
    awaited by a pending call whose catcher has room, the listeners
    having room for what decodes: in whatever order the replies come,
    the loop runs through them and each catcher has received the
    reply carrying its own tag and nothing else; entries under other
    tags are as they were. *)
Theorem replies_not_crossed rs : ∀ client,
  NoDup (Extra <$> rs) →
  Forall (awaited client) rs →
  roomy (length (decoded UnmarshalType rs)) (listenerStore client) →
  (receiver UnmarshalType client rs).2 = Running
  ∧ (∀ r catcher, r ∈ rs → catchersStore client !! Extra r = Some catcher →
       catchersStore (receiver UnmarshalType client rs).1 !! Extra r
       = Some (Chan.Mk (Chan.buf catcher ++ [r]) (Chan.cap catcher) false))
  ∧ (∀ tag, tag ∉ Extra <$> rs →
       catchersStore (receiver UnmarshalType client rs).1 !! tag = catchersStore client !! tag).
Proof.
  induction rs as [|r rs IH]; intros client Hnodup Haw Hroom.
  - split; [done|]. split; [|done]. intros r catcher Hin. by apply elem_of_nil in Hin.
  - cbn [fmap list_fmap] in Hnodup. apply NoDup_cons in Hnodup as [Hfresh Hnodup].
    apply Forall_cons in Haw as [Hr Hrs]. rewrite decoded_cons, length_app in Hroom.
    destruct (receiver_step_awaited client r _ Hr Hroom)
      as (catcher0 & client' & Hlook0 & Hstep & Hstore & Hroom').
    assert (∀ tag, tag ≠ Extra r → catchersStore client' !! tag = catchersStore client !! tag)
      as Hother by (intros tag Hne; rewrite Hstore; by apply lookup_insert_ne).
    assert (Forall (awaited client') rs) as Hrs'.
    { rewrite Forall_forall in Hrs |- *. intros r' Hin.
      destruct (Hrs r' Hin) as (Htag & catcher & Hlook & Hready).
      split; [done|]. exists catcher. split; [|done].
      rewrite Hother; [done|]. intros Heq. apply Hfresh. rewrite <- Heq.
      by apply list_elem_of_fmap_2. }
    destruct (IH client' Hnodup Hrs' Hroom') as (IHrun & IHown & IHother).
    cbn [receiver]. rewrite Hstep. split; [exact IHrun|]. split.
    + intros r' catcher Hin Hlook. apply elem_of_cons in Hin as [-> | Hin].
      * rewrite (IHother _ Hfresh), Hstore, lookup_insert_eq. congruence.
      * apply IHown; [done|]. rewrite Hother; [done|].
        intros Heq. apply Hfresh. rewrite <- Heq. by apply list_elem_of_fmap_2.
    + intros tag Hnot. cbn [fmap list_fmap] in Hnot. apply not_elem_of_cons in Hnot as [Hne Hnot].
      rewrite (IHother _ Hnot). by apply Hother.
Qed.

(** *** A client nobody has used yet *)

Lemma createClient_snoc uuid (options : list Option) option :
  createClient (TdType := TdType) uuid (options ++ [option])
  = option (createClient uuid options).
Proof. unfold createClient. by rewrite foldl_app. Qed.

Lemma createClient_stores uuid (options : list Option) :
  Forall setting options →
  listenerStore (createClient (TdType := TdType) uuid options) = []
  ∧ catchersStore (createClient (TdType := TdType) uuid options) = ∅
  ∧ extraCalls (createClient (TdType := TdType) uuid options) = 0%nat
  ∧ sent (createClient (TdType := TdType) uuid options) = [].
Proof.
  induction options as [|option options IH] using rev_ind; intros Hset; [done|].
  apply Forall_app in Hset as [Hset Hoption]. apply Forall_cons in Hoption as [Hoption _].
  rewrite createClient_snoc. destruct (IH Hset) as (Hl & Hc & He & Hs).
  by destruct Hoption as [[g ->] | [timeout ->]].
Qed.

Lemma receiver_step_idle client r :
  listenerStore client = [] → catchersStore client = ∅ →
  receiver_step UnmarshalType client r = (client, Running).
Proof.
  intros Hl Hc. unfold receiver_step.
  rewrite catch_unmatched by (right; by rewrite Hc).
  unfold publish. destruct (UnmarshalType (Data r)); [|done].
  rewrite Hl. cbn [broadcast]. rewrite <- Hl. by destruct client.
Qed.

(** X19.  A client built by [createClient] from options that only
    set fields starts with no listener, no pending call and nothing
    sent, whatever the options and their order; until [GetListener]
    or [Send] is called its dispatch loop drops every message, those
    that carry a tag and those that decode included, and never parks
    or panics. *)
Theorem fresh_client_drops_everything uuid (options : list Option) rs :
  Forall setting options →
  receiver UnmarshalType (createClient uuid options) rs = (createClient uuid options, Running)
  ∧ listenerStore (createClient (TdType := TdType) uuid options) = []
  ∧ catchersStore (createClient (TdType := TdType) uuid options) = ∅
  ∧ sent (createClient (TdType := TdType) uuid options) = [].
Proof.
  intros Hset. destruct (createClient_stores uuid options Hset) as (Hl & Hc & _ & Hs).
  split; [|done].
  induction rs as [|r rs IH]; [done|].
  cbn [receiver]. by rewrite receiver_step_idle.
Qed.

End DispatchFurther.

(** *** Concrete runs *)

Module DispatchFurtherExamples.
Import Dispatch.
Import DispatchSpec.
Import DispatchFixtures.
Import FurtherFixtures.

Lemma subscribed_roomy k : (k ≤ 1000)%nat → roomy k (listenerStore subscribed).
Proof. intros Hk. constructor; [|constructor]. repeat split. simpl. lia. Qed.

Lemma congested_open : no_closed_target congested.
Proof.
  split.
  - intros tag ch. simpl. by rewrite lookup_empty.
  - repeat constructor.
Qed.

(** The reply reaches the catcher, then the loop parks on the
    lagging listener: [Send] returns the reply all the same. *)
Lemma Send_receives_reply_witness :
  (Send decode congested getMe
     [(1 * Second, junk); (2 * Second, reply); (3 * Second, update)]).2
  = SendReturns (inl reply)
  ∧ catchersStore (Send decode congested getMe
                     [(1 * Second, junk); (2 * Second, reply); (3 * Second, update)]).1
      !! "a1" = None
  ∧ (receiver decode (registered congested getMe) [junk; reply]).2 = Blocked.
Proof.
  destruct (Send_receives_reply decode congested getMe [(1 * Second, junk)]
              (2 * Second) reply [(3 * Second, update)]) as [Hret Hgone];
    [done | done | done | | exact congested_open | reflexivity |].
  - constructor; [|constructor]. split; [reflexivity | done].
  - split; [exact (f_equal snd Hret) | split; [exact Hgone | reflexivity]].
Defined.

(** With room in every queue the loop is still running when [Send]
    returns. *)
Example reply_with_room :
  (Send decode subscribed getMe
     [(1 * Second, update); (2 * Second, reply); (3 * Second, junk)]).2
  = SendReturns (inl reply)
  ∧ (receiver decode (registered subscribed getMe) [update; reply]).2 = Running.
Proof. split; reflexivity. Qed.

Lemma receiver_never_panics_witness :
  (receiver decode client0 [update; reply; junk; late_reply]).2 ≠ Panicked.
Proof.
  exact (proj1 (receiver_never_panics decode [update; reply; junk; late_reply] client0
                  DispatchExamples.client0_open)).
Defined.

Lemma updates_in_arrival_order_witness :
  receiver decode client0 [update; junk; late_reply]
  = (set_listeners client0
       [{| isActive := true;
           Updates := Chan.Mk ["{updateNewMessage}"; "{ok}"] 1000 false |}],
     Running).
Proof.
  rewrite (updates_in_arrival_order decode [update; junk; late_reply] client0); [done | |].
  - apply Forall_cons; split; [by left|]. apply Forall_cons; split; [by left|].
    apply Forall_cons; split; [by right | constructor].
  - apply (subscribed_roomy 2). lia.
Defined.

Lemma replies_not_crossed_witness :
  catchersStore (receiver decode two_pending [reply_b2; reply]).1 !! "a1"
  = Some (Chan.Mk [reply] 1 false)
  ∧ catchersStore (receiver decode two_pending [reply_b2; reply]).1 !! "b2"
    = Some (Chan.Mk [reply_b2] 1 false).
Proof.
  destruct (replies_not_crossed decode [reply_b2; reply] two_pending) as (_ & Hown & _).
  - apply (bool_decide_unpack _). by vm_compute.
  - repeat constructor; try done; exists (Chan.make 1); (split; [reflexivity|]);
      (split; [reflexivity | simpl; lia]).
  - apply (subscribed_roomy 2). lia.
  - split.
    + apply (Hown reply (Chan.make 1)); [|reflexivity]. apply elem_of_cons. right.
      apply elem_of_cons. by left.
    + apply (Hown reply_b2 (Chan.make 1)); [|reflexivity]. apply elem_of_cons. by left.
Defined.

Lemma full_listener_parks_loop_witness :
  receiver decode congested [update; reply]
  = (set_listeners congested
       [{| isActive := true; Updates := Chan.Mk ["{updateNewMessage}"] 1000 false |};
        lagging],
     Blocked).
Proof.
  rewrite (full_listener_parks_loop decode congested update "{updateNewMessage}" [reply]
             (listenerStore subscribed) lagging []);
    try done; try (simpl; by rewrite length_replicate).
  constructor; [|constructor]. intros _. split; [done | simpl; lia].
Defined.

Lemma fresh_client_drops_everything_witness :
  receiver decode
    (createClient (λ n, "uuid") [WithCatchTimeout (5 * Second); WithExtraGenerator (λ n, "a")])
    [update; reply; junk]
  = (createClient (λ n, "uuid") [WithCatchTimeout (5 * Second); WithExtraGenerator (λ n, "a")],
     Running).
Proof.
  refine (proj1 (fresh_client_drops_everything decode (λ n, "uuid")
                   [WithCatchTimeout (5 * Second); WithExtraGenerator (λ n, "a")]
                   [update; reply; junk] _)).
  apply Forall_cons. split; [right; by eexists|].
  apply Forall_cons. split; [left; by eexists | apply Forall_nil_2].
Defined.

End DispatchFurtherExamples.

(** ** [Authorize], continued *)

Section AuthorizeFurther.

Import Engine.
Import AuthorizeSpec.

Context {H : Type} `{AuthorizationStateHandler H}.

Implicit Types (h : H) (client : Client) (a : option error) (t : turn).

(** X8.  Closed is observed while no failure of [Handle] is stored,
    and [Handle] accepts it: [Authorize] returns nil, without
    sleeping and without calling [client.Close].  A nil result does
    not mean that ready was reached. *)
Theorem Authorize_closed_without_failure h client pre post h1 c1 h2 c2 h3 :
  passes Authorization.select h client None pre = Some (h1, c1, None) →
  Handle h1 (logged c1 Api.GetAuthorizationState) Closed = Handled h2 c2 None →
  Close h2 = Some h3 →
  Authorization.Authorize client h (pre ++ Tick (inl Closed) :: post)
  = {| result := Returns None; client_after := c2; handler_after := h3;
       sleeps := []; closes := 1 |}.
Proof.
  intros Hpre Hhandle Hclose. eapply Authorize_returns; [exact Hpre | | exact Hclose].
  simpl. by rewrite Hhandle.
Qed.

(** X9.  The state query fails: [Authorize] returns the error of the
    query at once.  [Handle] is not called in that pass, the client
    is not closed, and an error stored by an earlier failure of
    [Handle] is not the one returned. *)
Theorem Authorize_state_query_fails h client pre post h1 c1 a1 e h2 :
  passes Authorization.select h client None pre = Some (h1, c1, a1) →
  Close h1 = Some h2 →
  Authorization.Authorize client h (pre ++ Tick (inr e) :: post)
  = {| result := Returns (Some (CallError e));
       client_after := logged c1 Api.GetAuthorizationState; handler_after := h2;
       sleeps := []; closes := 1 |}.
Proof.
  intros Hpre Hclose. by eapply Authorize_returns; [exact Hpre | | exact Hclose].
Qed.

Lemma select_tick_same h client a r :
  AuthorizationOther.select h client a (Tick r) = Authorization.select h client a (Tick r).
Proof. reflexivity. Qed.

(** X10.  The two revisions of [Authorize] differ in the cancellation
    case only: on a schedule in which the context is never done they
    make the same run, for every handler. *)
Theorem revisions_agree_without_cancellation schedule : ∀ h client,
  Done ∉ schedule →
  AuthorizationOther.Authorize client h schedule = Authorization.Authorize client h schedule.
Proof.
  intros h client Hno. unfold AuthorizationOther.Authorize, Authorization.Authorize. f_equal.
  generalize (@None error). revert h client.
  induction schedule as [|t schedule IH]; intros h client a; [done|].
  apply not_elem_of_cons in Hno as [Ht Hno]. cbn [for_loop].
  destruct t as [r|]; [|done]. rewrite select_tick_same.
  destruct (Authorization.select h client a (Tick r)); [by apply IH | done].
Qed.

End AuthorizeFurther.

(** ** The interactive handler under [Authorize] *)

Section InteractiveFurther.

Import Engine.
Import AuthorizeSpec.

Lemma ticks_cons t schedule :
  ticks (t :: schedule) = if is_tick t then t :: ticks schedule else ticks schedule.
Proof. unfold ticks. rewrite filter_cons. by destruct t. Qed.

Lemma for_loop_ticks {H : Type} (body : H → Client → option error → turn → pass H) :
  (∀ h client a, body h client a Done = Continue h client a) →
  ∀ schedule h client a,
    for_loop body h client a schedule = for_loop body h client a (ticks schedule).
Proof.
  intros Hdone. induction schedule as [|t schedule IH]; intros h client a; [done|].
  rewrite ticks_cons. destruct t as [r|]; cbn [is_tick for_loop].
  - destruct (body h client a (Tick r)); [apply IH | done].
  - rewrite Hdone. apply IH.
Qed.

(** X11.  The interactive handler's context is the background
    context, so [Authorize] never takes the cancellation case with
    it: in both revisions the run is the one the timer turns alone
    give, and it ends only by what the engine answers. *)
Theorem interactive_not_cancellable :
  (∀ client (h : Authorization.clientAuthorizer) schedule,
     Authorization.Authorize client h schedule
     = Authorization.Authorize client h (ticks schedule))
  ∧ (∀ client (h : AuthorizationOther.clientAuthorizer) schedule,
       AuthorizationOther.Authorize client h schedule
       = AuthorizationOther.Authorize client h (ticks schedule)).
Proof.
  split; intros client h schedule.
  - unfold Authorization.Authorize. by rewrite for_loop_ticks.
  - unfold AuthorizationOther.Authorize. by rewrite for_loop_ticks.
Qed.

Lemma Handle_queues_state (h h' : Authorization.clientAuthorizer) client client' state err :
  Authorization.clientAuthorizer_Handle h client state = Handled h' client' err →
  Authorization.State h'
  = Chan.Mk (Chan.buf (Authorization.State h) ++ [state]) (Chan.cap (Authorization.State h)) false.
Proof.
  unfold Authorization.clientAuthorizer_Handle, Chan.send.
  destruct (Chan.closed (Authorization.State h)); [done|].
  destruct (decide _); [|done].
  destruct state; cbn -[request Chan.recv Authorization.recv_string];
    repeat match goal with
      | |- context [Chan.recv ?c] => destruct (Chan.recv c) as [[?|] ?| |]
      | |- context [Authorization.recv_string ?c] =>
          destruct (Authorization.recv_string c) as [[? ?]|]
      | |- context [request ?c ?x] => destruct (request c x)
      end;
    try done; by intros [= <- _ _].
Qed.

(** X12.  Every state [Authorize] polls and the interactive [Handle]
    answers is queued on the State channel, in polling order: while
    the loop goes round, the channel holds what it held plus the
    polled states, none dropped, none reordered. *)
Theorem polled_states_queued pre : ∀ (h : Authorization.clientAuthorizer) client a h1 c1 a1,
  passes Authorization.select h client a pre = Some (h1, c1, a1) →
  Chan.buf (Authorization.State h1) = Chan.buf (Authorization.State h) ++ states_of pre
  ∧ Chan.cap (Authorization.State h1) = Chan.cap (Authorization.State h).
Proof.
  induction pre as [|t pre IH]; intros h client a h1 c1 a1 Hpre.
  - injection Hpre as <- _ _. by rewrite app_nil_r.
  - cbn [passes] in Hpre. destruct t as [[state|e]|]; cbn [states_of omap list_omap].
    + cbn [Authorization.select] in Hpre.
      change (@Handle _ Authorization.clientAuthorizer_handler)
        with Authorization.clientAuthorizer_Handle in Hpre.
      destruct (Authorization.clientAuthorizer_Handle h _ state) as [h' c' err| |] eqn:Hh;
        [|done|done].
      apply Handle_queues_state in Hh.
      destruct err; simpl in Hpre; repeat case_decide; try done;
        destruct (IH _ _ _ _ _ _ Hpre) as [-> ->]; rewrite Hh; simpl;
        by rewrite <- app_assoc.
    + done.
    + simpl in Hpre. by eapply IH.
Qed.

(** X13.  Ten states queued on the State channel and not read: the
    next call of the interactive [Handle] parks before it looks at the
    state, whatever the state is, ready included; no request is made,
    [Authorize] never returns and the handler is never closed. *)
Theorem unread_states_park_Authorize (h : Authorization.clientAuthorizer) client state rest :
  Chan.closed (Authorization.State h) = false →
  length (Chan.buf (Authorization.State h)) = Chan.cap (Authorization.State h) →
  Authorization.clientAuthorizer_Handle h client state = HandleParks h client
  ∧ Authorization.Authorize client h (Tick (inl state) :: rest)
    = {| result := Parks; client_after := logged client Api.GetAuthorizationState;
         handler_after := h; sleeps := []; closes := 0 |}.
Proof.
  intros Hopen Hfull.
  assert (∀ c, Authorization.clientAuthorizer_Handle h c state = HandleParks h c) as Hpark.
  { intros c. unfold Authorization.clientAuthorizer_Handle, Chan.send. rewrite Hopen.
    destruct (decide _); [lia | done]. }
  split; [apply Hpark|].
  unfold Authorization.Authorize. cbn [for_loop Authorization.select].
  change (@Handle _ Authorization.clientAuthorizer_handler)
    with Authorization.clientAuthorizer_Handle.
  by rewrite Hpark.
Qed.

End InteractiveFurther.

(** ** The unattended handler *)

Section BotProperties.

Import Bot.





(** X15.  The token given to [BotAuthorizer] is sent once: the first
    wait-phone-number makes the check-bot-token request with exactly
    that token and leaves the Token channel empty; a second
    wait-phone-number finds nothing to receive and parks without a
    request.  Both revisions. *)
Theorem bot_token_used_once token h client :
  Token h = Chan.Mk [token] 1 false →
  Chan.closed (State h) = false →
  (length (Chan.buf (State h)) + 2 ≤ Chan.cap (State h))%nat →
  let queue s := Chan.Mk (Chan.buf (State h) ++ s) (Chan.cap (State h)) false in
  let h1 := set_Token (set_State h (queue [Engine.WaitPhoneNumber])) (Chan.Mk [] 1 false) in
  botAuthorizer_Handle h client Engine.WaitPhoneNumber
  = Handled h1 (logged client (CheckAuthenticationBotToken token))
      (CallError <$> respond client (calls client) (CheckAuthenticationBotToken token))
  ∧ botAuthorizer_Handle_other h client Engine.WaitPhoneNumber
    = botAuthorizer_Handle h client Engine.WaitPhoneNumber
  ∧ ∀ client',
      botAuthorizer_Handle h1 client' Engine.WaitPhoneNumber
      = HandleParks (set_State h1 (queue [Engine.WaitPhoneNumber; Engine.WaitPhoneNumber])) client'
      ∧ botAuthorizer_Handle_other h1 client' Engine.WaitPhoneNumber
        = botAuthorizer_Handle h1 client' Engine.WaitPhoneNumber.
Proof.
  intros Htoken Hopen Hroom queue h1. subst queue h1.
  unfold botAuthorizer_Handle, botAuthorizer_Handle_other, Chan.send. rewrite Hopen.
  destruct (decide _) as [_|]; [|lia].
  cbn -[request]. rewrite Htoken. cbn -[request].
  split; [reflexivity|]. split; [reflexivity|].
  intros client'.
  destruct (decide _) as [_|Hfull]; [|exfalso; apply Hfull; rewrite length_app; simpl; lia].
  cbn. rewrite <- app_assoc. done.
Qed.

End BotProperties.

Lemma bot_token_used_once_witness :
  Bot.botAuthorizer_Handle (Bot.BotAuthorizer "110201543:AAHdqTcvCH1vGWJxfSeofSAs0K5PALDsaw")
    {| Bot.respond := λ _ _, None; Bot.calls := [] |} Engine.WaitPhoneNumber
  = Bot.Handled
      {| Bot.TdlibParametersChan := Chan.make 1; Bot.Token := Chan.Mk [] 1 false;
         Bot.State := Chan.Mk [Engine.WaitPhoneNumber] 10 false |}
      {| Bot.respond := λ _ _, None;
         Bot.calls := [Bot.CheckAuthenticationBotToken
                         "110201543:AAHdqTcvCH1vGWJxfSeofSAs0K5PALDsaw"] |}
      None.
Proof.
  destruct (bot_token_used_once "110201543:AAHdqTcvCH1vGWJxfSeofSAs0K5PALDsaw"
              (Bot.BotAuthorizer "110201543:AAHdqTcvCH1vGWJxfSeofSAs0K5PALDsaw")
              {| Bot.respond := λ _ _, None; Bot.calls := [] |})
    as (Hfirst & _); [reflexivity | reflexivity | simpl; lia |].
  exact Hfirst.
Defined.

(** ** The interactive handler and its operator *)

Section InteractorProperties.

Import Engine.
Import Authorization.
Import Interactor.

Implicit Types (h : clientAuthorizer).

(** X16.  A handler is good for one run.  After a run of [Authorize]
    that returned, the State channel of the interactive handler is
    closed, so in a second run the first call of [Handle] panics on
    its send, before any corrective request. *)
Theorem handler_single_use client h schedule r client2 state rest :
  result (Authorize client h schedule) = Returns r →
  result (Authorize client2 (handler_after (Authorize client h schedule))
            (Tick (inl state) :: rest)) = Panics
  ∧ calls (client_after (Authorize client2 (handler_after (Authorize client h schedule))
                           (Tick (inl state) :: rest)))
    = calls client2 ++ [Api.GetAuthorizationState].
Proof.
  intros Hr.
  destruct (Authorize_clientAuthorizer client h schedule) as [Hclosed _].
  destruct (Hclosed r Hr) as (_ & _ & _ & Hstate & _).
  clear Hclosed Hr. remember (handler_after (Authorize client h schedule)) as h' eqn:Eh.
  clear Eh.
  unfold Authorize. cbn [for_loop select].
  change (@Handle _ clientAuthorizer_handler) with clientAuthorizer_Handle.
  unfold clientAuthorizer_Handle, Chan.send. rewrite Hstate.
  cbn [deferred_Close]. by destruct (Close h').
Qed.

Lemma set_State_twice h a b : Interactor.set_State (Interactor.set_State h a) b
                              = Interactor.set_State h b.
Proof. reflexivity. Qed.

Lemma serve_passed_over skipped : ∀ queue h stdin printed,
  Forall (λ s, passed_over s = true) skipped →
  serve (skipped ++ queue) h stdin printed
  = serve queue (Interactor.set_State h queue) stdin printed.
Proof.
  induction skipped as [|s skipped IH]; intros queue h stdin printed Hskip.
  - cbn [app]. by destruct queue as [|[] queue].
  - apply Forall_cons in Hskip as [Hs Hskip]. cbn [app serve].
    destruct s; try discriminate Hs; by rewrite IH.
Qed.

(** X17.  [CliInteractor] goes past the states it has no case for
    without reading input or printing, and returns at the first
    ready, wait-email-address, wait-email-code,
    wait-other-device-confirmation or wait-registration: the states
    queued behind that one stay on the channel, so a prompt among
    them is never answered.  The input channels are untouched. *)
Theorem CliInteractor_stops h stdin skipped state rest :
  Chan.buf (State h) = skipped ++ state :: rest →
  Forall (λ s, passed_over s = true) skipped →
  final state = true →
  CliInteractor h stdin
  = {| how := Returned; handler := Interactor.set_State h rest;
       stdin_left := stdin; printed := [] |}.
Proof.
  intros Hqueue Hskip Hfinal. unfold CliInteractor.
  rewrite Hqueue, (serve_passed_over skipped) by done.
  cbn [serve]. rewrite set_State_twice. by destruct state.
Qed.

Lemma token_word line unread :
  Forall (λ r, isSpace r = false) line →
  token (line ++ newline :: unread) = (line, newline :: unread).
Proof.
  induction 1 as [|r line Hr _ IH]; [done|].
  cbn [app token]. by rewrite Hr, IH.
Qed.

Lemma Scanln_word line more :
  Forall (λ r, isSpace r = false) line →
  Scanln (line ++ newline :: more) = (string_of_runes line, more).
Proof.
  intros Hline. unfold Scanln. destruct Hline as [|r line Hr Hline]; [done|].
  cbn [app SkipSpace]. rewrite Hr.
  destruct (r =? newline) eqn:Hnl.
  { apply Z.eqb_eq in Hnl. subst r. discriminate Hr. }
  change (r :: line ++ newline :: more) with ((r :: line) ++ newline :: more).
  rewrite token_word by (by constructor). done.
Qed.

(** X18.  The hand-over of an input.  [Handle] is called for
    wait-code with nothing queued anywhere: it queues the state and
    parks on the Code channel without a request.  [CliInteractor]
    then takes the state, prompts, reads a line and queues what it
    read on the Code channel, and waits for the next state.  When the
    line is one word, without white space (or is empty), what is
    queued and what the parked receive of [Handle] gets is that
    line, and the input behind the line is still unread.  Likewise
    for the phone number and the password. *)
Theorem operator_input_handed_over h client line more :
  all_open h →
  Chan.buf (State h) = [] → (1 ≤ Chan.cap (State h))%nat →
  Chan.buf (PhoneNumber h) = [] → (1 ≤ Chan.cap (PhoneNumber h))%nat →
  Chan.buf (Code h) = [] → (1 ≤ Chan.cap (Code h))%nat →
  Chan.buf (Password h) = [] → (1 ≤ Chan.cap (Password h))%nat →
  Forall (λ r, isSpace r = false) line →
  let stdin := line ++ newline :: more in
  let waiting state := Interactor.set_State h [state] in
  let idle := Interactor.set_State h [] in
  let holding ch := Chan.Mk [string_of_runes line] (Chan.cap ch) false in
  (clientAuthorizer_Handle h client WaitPhoneNumber = HandleParks (waiting WaitPhoneNumber) client
   ∧ CliInteractor (waiting WaitPhoneNumber) stdin
     = {| how := AwaitsState;
          handler := set_PhoneNumber idle (holding (PhoneNumber h));
          stdin_left := more; printed := ["Enter phone number: "] |}
   ∧ recv_string (holding (PhoneNumber h))
     = Some (string_of_runes line, Chan.Mk [] (Chan.cap (PhoneNumber h)) false))
  ∧ (clientAuthorizer_Handle h client WaitCode = HandleParks (waiting WaitCode) client
     ∧ CliInteractor (waiting WaitCode) stdin
       = {| how := AwaitsState;
            handler := set_Code idle (holding (Code h));
            stdin_left := more; printed := ["Enter code: "] |}
     ∧ recv_string (holding (Code h))
       = Some (string_of_runes line, Chan.Mk [] (Chan.cap (Code h)) false))
  ∧ (clientAuthorizer_Handle h client WaitPassword = HandleParks (waiting WaitPassword) client
     ∧ CliInteractor (waiting WaitPassword) stdin
       = {| how := AwaitsState;
            handler := set_Password idle (holding (Password h));
            stdin_left := more; printed := ["Enter password: "] |}
     ∧ recv_string (holding (Password h))
       = Some (string_of_runes line, Chan.Mk [] (Chan.cap (Password h)) false)).
Proof.
  intros (Hp & Hn & Hc & Hs & Hw) Hsb Hsc Hnb Hnc Hcb Hcc Hwb Hwc Hline stdin waiting idle holding.
  subst stdin waiting idle holding.
  destruct h as [pc [nb ncap ncl] [cb ccap ccl] [sb scap scl] [wb wcap wcl]].
  simpl in *. subst.
  unfold clientAuthorizer_Handle, CliInteractor, Chan.send, Interactor.set_State.
  cbn -[decide Scanln string_of_runes]. rewrite !(Scanln_word line more Hline).
  unfold hand_over, Chan.send. cbn -[decide string_of_runes].
  repeat (destruct (decide _); [|simpl in *; lia]).
  repeat split.
Qed.

(** A line of more than one word: [Scanln] stores the first word,
    reads on to the first character of the second and leaves the
    line from there to the next call. *)
Lemma Scanln_two_words word r unread :
  word ≠ [] → Forall (λ r, isSpace r = false) word → isSpace r = false →
  Scanln (word ++ [32] ++ r :: unread) = (string_of_runes word, unread).
Proof.
  intros Hne Hword Hr. unfold Scanln.
  assert (∀ rest, token (word ++ 32 :: rest) = (word, 32 :: rest)) as Htoken.
  { intros rest. clear Hne. induction Hword as [|c word Hc _ IH]; [done|].
    cbn [app token]. by rewrite Hc, IH. }
  destruct Hword as [|c word Hc Hword]; [done|].
  cbn [app SkipSpace]. rewrite Hc.
  destruct (c =? newline) eqn:Hnl.
  { apply Z.eqb_eq in Hnl. subst c. discriminate Hc. }
  change (c :: word ++ 32 :: r :: unread) with ((c :: word) ++ 32 :: r :: unread).
  rewrite Htoken.
  change (end_of_line (32 :: r :: unread)) with (end_of_line (r :: unread)).
  cbn [end_of_line]. rewrite Hr.
  destruct (r =? newline) eqn:Hrn; [|done].
  apply Z.eqb_eq in Hrn. subst r. discriminate Hr.
Qed.

(** X20.  After [Close] the interactor comes to an end by itself:
    it drains what is still queued on the State channel and, finding
    the channel closed, returns without a prompt.  The handler cannot
    be closed a second time: the first [close] of a second [Close]
    panics. *)
Theorem closed_handler_ends_interactor h h' stdin :
  clientAuthorizer_Close h = Some h' →
  Forall (λ s, passed_over s = true) (Chan.buf (State h)) →
  CliInteractor h' stdin
  = {| how := Returned; handler := Interactor.set_State h' [];
       stdin_left := stdin; printed := [] |}
  ∧ clientAuthorizer_Close h' = None.
Proof.
  intros Hclose Hskip. unfold clientAuthorizer_Close, Chan.close in Hclose.
  destruct h as [[pb pcap pcl] [nb ncap ncl] [cb ccap ccl] [sb scap scl] [wb wcap wcl]].
  simpl in *.
  destruct pcl, ncl, ccl, scl, wcl; try done. injection Hclose as <-.
  split; [|done].
  unfold CliInteractor. cbn [State Chan.buf].
  rewrite <- (app_nil_r sb) at 1. by rewrite (serve_passed_over sb) by done.
Qed.

End InteractorProperties.

Section BotLifecycle.

Import Bot.

(** X21.  A closed unattended handler is of no further use: a second
    [Close] panics on its first [close], and [Handle] panics on the
    send to the State channel before it looks at the state, without
    a request; in both revisions. *)
Theorem bot_closed_handler_unusable h h' client state :
  botAuthorizer_Close h = Some h' →
  botAuthorizer_Close h' = None
  ∧ botAuthorizer_Handle h' client state = HandlePanics h' client
  ∧ botAuthorizer_Handle_other h' client state = HandlePanics h' client.
Proof.
  unfold botAuthorizer_Close, Chan.close.
  destruct h as [[pb pcap pcl] [tb tcap tcl] [sb scap scl]]. simpl.
  destruct pcl, tcl, scl; try done. by intros [= <-].
Qed.

End BotLifecycle.

(** ** Concrete runs, continued *)

Module AuthorizeFurtherExamples.
Import Engine.
Import AuthorizeSpec.
Import AuthorizeFixtures.
Import InteractorFixtures.

Lemma Authorize_closed_without_failure_witness :
  Authorization.Authorize Scripted.idle_engine Authorization.ClientAuthorizer
    [Tick (inl Closing); Tick (inl Closed); Tick (inl Ready)]
  = {| result := Returns None;
       client_after :=
         {| respond := λ _ _, None;
            calls := [Api.GetAuthorizationState; Api.GetAuthorizationState] |};
       handler_after :=
         {| Authorization.TdlibParametersChan := Chan.Mk [] 1 true;
            Authorization.PhoneNumber := Chan.Mk [] 1 true;
            Authorization.Code := Chan.Mk [] 1 true;
            Authorization.State := Chan.Mk [Closing; Closed] 10 true;
            Authorization.Password := Chan.Mk [] 1 true |};
       sleeps := []; closes := 1 |}.
Proof.
  eapply (Authorize_closed_without_failure (H := Authorization.clientAuthorizer)
            Authorization.ClientAuthorizer Scripted.idle_engine [Tick (inl Closing)]
            [Tick (inl Ready)]); reflexivity.
Defined.

Lemma Authorize_state_query_fails_witness :
  result (Authorization.Authorize Scripted.idle_engine operator
            [Tick (inl WaitRegistration); Tick (inr ResponseCatchingTimeout)])
  = Returns (Some (CallError ResponseCatchingTimeout)).
Proof.
  exact (f_equal result
           (Authorize_state_query_fails (H := Authorization.clientAuthorizer)
              operator Scripted.idle_engine [Tick (inl WaitRegistration)] []
              _ _ _ ResponseCatchingTimeout _ eq_refl eq_refl)).
Defined.

Lemma revisions_agree_without_cancellation_witness :
  AuthorizationOther.Authorize Scripted.idle_engine bystander
    [Tick (inl WaitCode); Tick (inl Closing); Tick (inl Closed)]
  = Authorization.Authorize Scripted.idle_engine bystander
      [Tick (inl WaitCode); Tick (inl Closing); Tick (inl Closed)].
Proof.
  apply (revisions_agree_without_cancellation (H := Scripted.t)).
  intros Hin. repeat (apply elem_of_cons in Hin as [Hin|Hin]; [discriminate|]).
  by apply elem_of_nil in Hin.
Defined.

Lemma polled_states_queued_witness :
  ∃ h1 c1 a1,
    passes Authorization.select operator Scripted.idle_engine None
      [Tick (inl WaitTdlibParameters); Tick (inl WaitPhoneNumber); Tick (inl WaitCode)]
    = Some (h1, c1, a1)
    ∧ Chan.buf (Authorization.State h1) = [WaitTdlibParameters; WaitPhoneNumber; WaitCode].
Proof.
  eexists _, _, _. split; [reflexivity|].
  exact (proj1 (polled_states_queued
                  [Tick (inl WaitTdlibParameters); Tick (inl WaitPhoneNumber);
                   Tick (inl WaitCode)]
                  operator Scripted.idle_engine None _ _ _ eq_refl)).
Defined.

(** An interactive handler whose State channel nobody has read for
    ten polls. *)
Lemma unread_states_park_Authorize_witness :
  result (Authorization.Authorize Scripted.idle_engine
            {| Authorization.TdlibParametersChan := Chan.make 1;
               Authorization.PhoneNumber := Chan.make 1;
               Authorization.Code := Chan.make 1;
               Authorization.State := Chan.Mk (replicate 10 Closing) 10 false;
               Authorization.Password := Chan.make 1 |}
            [Tick (inl Ready)])
  = Parks.
Proof.
  edestruct (unread_states_park_Authorize) as [_ Hrun]; [| | rewrite Hrun]; reflexivity.
Defined.

(** The same from a fresh handler: ten polls that need no input,
    then ready. *)
Example eleventh_poll_parks :
  result (Authorization.Authorize Scripted.idle_engine Authorization.ClientAuthorizer
            (replicate 10 (Tick (inl Closing)) ++ [Tick (inl Ready)]))
  = Parks.
Proof. reflexivity. Qed.

Lemma handler_single_use_witness :
  result (Authorization.Authorize Scripted.idle_engine
            (handler_after (Authorization.Authorize Scripted.idle_engine operator login))
            [Tick (inl WaitTdlibParameters)])
  = Panics.
Proof.
  exact (proj1 (handler_single_use Scripted.idle_engine operator login None
                  Scripted.idle_engine WaitTdlibParameters [] eq_refl)).
Defined.

Lemma CliInteractor_stops_witness :
  Interactor.CliInteractor
    {| Authorization.TdlibParametersChan := Chan.make 1;
       Authorization.PhoneNumber := Chan.make 1;
       Authorization.Code := Chan.make 1;
       Authorization.State := Chan.Mk [WaitTdlibParameters; WaitRegistration; WaitCode] 10 false;
       Authorization.Password := Chan.make 1 |}
    (typed ["12345"])
  = {| Interactor.how := Interactor.Returned;
       Interactor.handler :=
         {| Authorization.TdlibParametersChan := Chan.make 1;
            Authorization.PhoneNumber := Chan.make 1;
            Authorization.Code := Chan.make 1;
            Authorization.State := Chan.Mk [WaitCode] 10 false;
            Authorization.Password := Chan.make 1 |};
       Interactor.stdin_left := typed ["12345"]; Interactor.printed := [] |}.
Proof.
  refine (CliInteractor_stops
            {| Authorization.TdlibParametersChan := Chan.make 1;
               Authorization.PhoneNumber := Chan.make 1;
               Authorization.Code := Chan.make 1;
               Authorization.State :=
                 Chan.Mk [WaitTdlibParameters; WaitRegistration; WaitCode] 10 false;
               Authorization.Password := Chan.make 1 |}
            (typed ["12345"]) [WaitTdlibParameters] WaitRegistration [WaitCode]
            eq_refl _ eq_refl).
  by repeat constructor.
Defined.

Lemma operator_input_handed_over_witness :
  Interactor.CliInteractor
    (Interactor.set_State Authorization.ClientAuthorizer [WaitCode])
    (typed ["12345"; "hunter2"])
  = {| Interactor.how := Interactor.AwaitsState;
       Interactor.handler :=
         {| Authorization.TdlibParametersChan := Chan.make 1;
            Authorization.PhoneNumber := Chan.make 1;
            Authorization.Code := Chan.Mk ["12345"] 1 false;
            Authorization.State := Chan.make 10;
            Authorization.Password := Chan.make 1 |};
       Interactor.stdin_left := typed ["hunter2"];
       Interactor.printed := ["Enter code: "] |}.
Proof.
  assert (Hopen : Authorization.all_open Authorization.ClientAuthorizer) by (by repeat split).
  assert (Hword : Forall (λ r, Interactor.isSpace r = false) (keys "12345"))
    by (by repeat constructor).
  exact (proj1 (proj2 (proj1 (proj2
           (operator_input_handed_over Authorization.ClientAuthorizer Scripted.idle_engine
              (keys "12345") (typed ["hunter2"]) Hopen eq_refl (le_n_S _ _ (Nat.le_0_l _))
              eq_refl (le_n 1) eq_refl (le_n 1) eq_refl (le_n 1) Hword))))).
Defined.

(** The operator types a phone number with a space in it: only what
    is in front of the space is handed over, and the next prompt
    finds the digits behind the first one that follows the space. *)
Example spaced_number_cut :
  Interactor.CliInteractor
    (Interactor.set_State Authorization.ClientAuthorizer [WaitPhoneNumber; WaitCode])
    (typed ["+1 5550100"; "12345"])
  = {| Interactor.how := Interactor.AwaitsState;
       Interactor.handler :=
         {| Authorization.TdlibParametersChan := Chan.make 1;
            Authorization.PhoneNumber := Chan.Mk ["+1"] 1 false;
            Authorization.Code := Chan.Mk ["550100"] 1 false;
            Authorization.State := Chan.make 10;
            Authorization.Password := Chan.make 1 |};
       Interactor.stdin_left := typed ["12345"];
       Interactor.printed := ["Enter phone number: "; "Enter code: "] |}.
Proof. reflexivity. Qed.

Lemma closed_handler_ends_interactor_witness :
  Interactor.how
    (Interactor.CliInteractor
       {| Authorization.TdlibParametersChan := Chan.Mk [] 1 true;
          Authorization.PhoneNumber := Chan.Mk [] 1 true;
          Authorization.Code := Chan.Mk [] 1 true;
          Authorization.State := Chan.Mk [Closing; Closed] 10 true;
          Authorization.Password := Chan.Mk [] 1 true |} (typed ["12345"]))
  = Interactor.Returned.
Proof.
  refine (f_equal Interactor.how
            (proj1 (closed_handler_ends_interactor
                      (Interactor.set_State Authorization.ClientAuthorizer [Closing; Closed])
                      _ (typed ["12345"]) eq_refl _))).
  by repeat constructor.
Defined.

Lemma bot_closed_handler_unusable_witness :
  Bot.botAuthorizer_Handle
    {| Bot.TdlibParametersChan := Chan.Mk [] 1 true;
       Bot.Token := Chan.Mk ["110201543:AAHdqTcvCH1vGWJxfSeofSAs0K5PALDsaw"] 1 true;
       Bot.State := Chan.Mk [] 10 true |}
    {| Bot.respond := λ _ _, None; Bot.calls := [] |} WaitTdlibParameters
  = Bot.HandlePanics
      {| Bot.TdlibParametersChan := Chan.Mk [] 1 true;
         Bot.Token := Chan.Mk ["110201543:AAHdqTcvCH1vGWJxfSeofSAs0K5PALDsaw"] 1 true;
         Bot.State := Chan.Mk [] 10 true |}
      {| Bot.respond := λ _ _, None; Bot.calls := [] |}.
Proof.
  exact (proj1 (proj2 (bot_closed_handler_unusable
                         (Bot.BotAuthorizer "110201543:AAHdqTcvCH1vGWJxfSeofSAs0K5PALDsaw")
                         _ {| Bot.respond := λ _ _, None; Bot.calls := [] |}
                         WaitTdlibParameters eq_refl))).
Defined.

End AuthorizeFurtherExamples.
